(** * p2-parser: the recursive-descent parser of the Decaf compiler, phase 2

    A shallow embedding of [src/p2-parser/src/p2-parser.c].  The token
    queue is a list of tokens threaded through every rule; a rule either
    returns a value together with the remaining queue, throws a parse
    failure ([Error_throw_printf] never returns), or runs into behaviour the
    C standard leaves undefined (a null [Token*] dereferenced, a non-void
    function that ends without [return], a token read after [Token_free]). *)

From Stdlib Require Import String Ascii List ZArith Bool Lia.
Import ListNotations.
Local Open Scope string_scope.
Local Open Scope Z_scope.
Local Open Scope list_scope.
Set Warnings "-register-all".

(** ** Tokens and the token queue (declared in the framework headers) *)

Inductive TokenType := ID | DECLIT | HEXLIT | STRLIT | KEY | SYM.

Definition TokenType_eqb (a b : TokenType) : bool :=
  match a, b with
  | ID, ID | DECLIT, DECLIT | HEXLIT, HEXLIT
  | STRLIT, STRLIT | KEY, KEY | SYM, SYM => true
  | _, _ => false
  end.

Record Token := mkToken { type : TokenType; text : string; line : Z }.

(** The queue holds the tokens still to be read, front first. *)
Definition TokenQueue := list Token.

(** ** The AST (declared in the framework headers) *)

Inductive DecafType := INT | BOOL | VOID.

Inductive UnaryOpType := NEGOP | NOTOP.

Inductive BinaryOpType :=
| OROP | ANDOP | EQOP | NEQOP | LTOP | LEOP | GEOP | GTOP
| ADDOP | SUBOP | MULOP | DIVOP | MODOP.

Definition ParameterList := list (string * DecafType).

(** An [ASTNode*] may be [NULL]: a child pointer is an [option]. *)
Inductive ASTNode :=
| ProgramNode (variables functions : list (option ASTNode))
| VarDeclNode (name : string) (ty : DecafType) (is_array : bool)
              (array_length : Z) (source_line : Z)
| FuncDeclNode (name : string) (return_type : DecafType)
               (parameters : ParameterList) (body : option ASTNode)
               (source_line : Z)
| BlockNode (variables statements : list (option ASTNode)) (source_line : Z)
| ConditionalNode (condition if_block else_block : option ASTNode)
                  (source_line : Z)
| AssignmentNode (location value : option ASTNode) (source_line : Z)
| BinaryOpNode (operator : BinaryOpType) (left right : option ASTNode)
               (source_line : Z)
| UnaryOpNode (operator : UnaryOpType) (child : option ASTNode)
              (source_line : Z)
| LocationNode (name : string) (index : option ASTNode) (source_line : Z)
| LiteralNode_int (value : Z) (source_line : Z)
| LiteralNode_bool (value : bool) (source_line : Z)
| LiteralNode_string (value : string) (source_line : Z)
| BreakNode (source_line : Z)
| ContinueNode (source_line : Z)
| ReturnNode (value : option ASTNode) (source_line : Z).

Definition NodePtr := option ASTNode.
Definition NodeList := list NodePtr.

Definition NodeList_new : NodeList := [].
(** Modelled from the spec: [NodeList_add] is not in the source; the node
    list is an insertion-ordered sequence, so adding links the pointer it is
    given (also a null one) at the end. *)
Definition NodeList_add (l : NodeList) (n : NodePtr) : NodeList := l ++ [n].

Definition ParameterList_new : ParameterList := [].
Definition ParameterList_add_new (pl : ParameterList) (name : string)
  (t : DecafType) : ParameterList := pl ++ [(name, t)].

(** ** Parse failures and outcomes *)

(** One constructor per message of the source:
    - "Unexpected end of input", with what was expected when the message
      says so ("(expected ';')", "(expected type)", "(expected identifier)");
    - "Expected '%s' but found '%s' on line %d";
    - "Invalid type '%s' on line %d";
    - "Invalid ID '%s' on line %d";
    - "Invalid operator";
    - "Invalid assignment";
    - "invalid return". *)
Inductive ParseError :=
| UnexpectedEndOfInput (expected : option string)
| UnexpectedToken (expected found : string) (on_line : Z)
| InvalidType (found : string) (on_line : Z)
| InvalidIdentifier (found : string) (on_line : Z)
| InvalidOperator
| InvalidAssignmentValue
| InvalidReturnExpression.

(** What the C standard leaves undefined and the source can reach. *)
Inductive UndefinedBehaviour :=
| NullDereference      (* [TokenQueue_peek(input)->...] on an empty queue *)
| NoReturnValue        (* the end of a non-void function is reached *)
| UseAfterFree         (* a token is read after [Token_free] *)
| SizeWrapAround.      (* [strlen(s) - 2] on a text of fewer than 2 characters *)

Inductive outcome (A : Type) :=
| Ok (a : A) (rest : TokenQueue)
| Throw (e : ParseError)
| Undefined (u : UndefinedBehaviour)
| OutOfFuel.
Arguments Ok {A} a rest.
Arguments Throw {A} e.
Arguments Undefined {A} u.
Arguments OutOfFuel {A}.

(** A rule is a function of the queue. *)
Definition M (A : Type) := TokenQueue -> outcome A.

Definition ret {A} (a : A) : M A := fun q => Ok a q.

Definition bind {A B} (m : M A) (f : A -> M B) : M B :=
  fun q => match m q with
           | Ok a q' => f a q'
           | Throw e => Throw e
           | Undefined u => Undefined u
           | OutOfFuel => OutOfFuel
           end.

(** Modelled from the spec: [Error_throw_printf] is not in the source; a
    failure aborts the whole parse and reaches the caller of the entry
    point unchanged. *)
Definition Error_throw {A} (e : ParseError) : M A := fun _ => Throw e.
Definition undefined {A} (u : UndefinedBehaviour) : M A :=
  fun _ => Undefined u.
Definition out_of_fuel {A} : M A := fun _ => OutOfFuel.

Declare Scope parser_scope.
Delimit Scope parser_scope with parser.
Notation "x <- m ;; k" := (bind m (fun x => k))
  (at level 61, m at next level, right associativity) : parser_scope.
Notation "m ;; k" := (bind m (fun _ => k))
  (at level 61, right associativity) : parser_scope.
Local Open Scope parser_scope.

(** ** The token queue interface (framework, not in the source)

    Modelled from the spec: [TokenQueue_is_empty], [TokenQueue_peek] and
    [TokenQueue_remove] are the "is empty", "look at front without removing"
    and "remove and return front" of the token stream.  The source tests the
    pointer [TokenQueue_peek] returns against [NULL] (parse_program), so on
    an empty queue both return a null pointer. *)
Definition TokenQueue_is_empty : M bool :=
  fun q => Ok (match q with [] => true | _ => false end) q.

Definition TokenQueue_peek : M (option Token) :=
  fun q => Ok (hd_error q) q.

Definition TokenQueue_remove : M (option Token) :=
  fun q => Ok (hd_error q) (tl q).

(** [p->field]: undefined when [p] is null. *)
Definition deref (p : option Token) : M Token :=
  match p with
  | Some t => ret t
  | None => undefined NullDereference
  end.

(** Modelled from the spec: [Token_free] is not in the source; the rule that
    matches a token releases it, and nothing else happens. *)
Definition Token_free (p : option Token) : M unit := ret tt.

(** Modelled from the spec: [token_str_eq] is not in the source; texts
    match when they are exactly the same. *)
Definition token_str_eq (a b : string) : bool := String.eqb a b.

(** [strcmp(a, b) == 0]. *)
Definition strcmp0 (a b : string) : bool := String.eqb a b.

(** ** C library functions the parser calls *)

Definition isspace (c : ascii) : bool :=
  let n := nat_of_ascii c in
  (Nat.eqb n 32 || ((Nat.leb 9 n) && (Nat.leb n 13)))%bool.

Definition digit_value (c : ascii) : option Z :=
  let n := Z.of_nat (nat_of_ascii c) in
  if (48 <=? n) && (n <=? 57) then Some (n - 48)
  else if (97 <=? n) && (n <=? 122) then Some (n - 97 + 10)
  else if (65 <=? n) && (n <=? 90) then Some (n - 65 + 10)
  else None.

Fixpoint skip_spaces (s : string) : string :=
  match s with
  | String c s' => if isspace c then skip_spaces s' else s
  | EmptyString => s
  end.

(** The digits of base [base] at the front of [s], accumulated on [acc]. *)
Fixpoint digits (base : Z) (s : string) (acc : Z) : Z :=
  match s with
  | String c s' =>
      match digit_value c with
      | Some d => if d <? base then digits base s' (acc * base + d) else acc
      | None => acc
      end
  | EmptyString => acc
  end.

Definition LONG_MAX : Z := 2 ^ 63 - 1.
Definition LONG_MIN : Z := - 2 ^ 63.

Definition is_digit_of (base : Z) (s : string) : bool :=
  match s with
  | String c _ => match digit_value c with
                  | Some d => d <? base
                  | None => false
                  end
  | EmptyString => false
  end.

(** A "0x" or "0X" prefix is skipped in base 16 when a hex digit follows. *)
Definition skip_hex_prefix (base : Z) (s : string) : string :=
  match s with
  | String "0" (String x s') =>
      if (base =? 16) && (Ascii.eqb x "x" || Ascii.eqb x "X")
         && is_digit_of 16 s'
      then s' else s
  | _ => s
  end.

(** [strtol(s, NULL, base)] with a 64-bit [long]: white space, a sign, the
    digits; a value out of range is clamped. *)
Definition strtol (s : string) (base : Z) : Z :=
  let s := skip_spaces s in
  let '(neg, s) :=
    match s with
    | String "-" s' => (true, s')
    | String "+" s' => (false, s')
    | _ => (false, s)
    end in
  let v := digits base (skip_hex_prefix base s) 0 in
  let v := if neg then - v else v in
  Z.max LONG_MIN (Z.min LONG_MAX v).

(** Conversion of a [long] to a 32-bit [int]. *)
Definition to_int (v : Z) : Z := (v + 2 ^ 31) mod 2 ^ 32 - 2 ^ 31.

(** [atoi(s)] is [(int) strtol(s, NULL, 10)]. *)
Definition atoi (s : string) : Z := to_int (strtol s 10).

(** [snprintf(buffer, size, "%s", s)]: at most [size - 1] characters of [s]
    are stored before the terminator. *)
Definition snprintf (size : nat) (s : string) : string :=
  substring 0 (size - 1) s.

(** [strncpy(dst, s, n)] into a fresh buffer: the first [n] characters of
    [s].  (No terminator is stored when [s] has [n] characters or more; the
    comparisons of [op_type_helper] with texts of at most two characters never
    read that far when [n] is three or more.) *)
Definition strncpy (s : string) (n : nat) : string := substring 0 n s.

(** The text between the first and the last character of [s]:
    [strncpy(parsed, s + 1, strlen(s) - 2)] and a terminator; the unsigned
    [strlen(s) - 2] wraps around when [s] has fewer than two characters. *)
Definition strip_quotes (s : string) : M string :=
  if (String.length s <? 2)%nat then undefined SizeWrapAround
  else ret (substring 1 (String.length s - 2) s).

Section Parser.

(** The two limits come from the framework headers. *)
Variable MAX_ID_LEN : nat.
Variable MAX_TOKEN_LEN : nat.

(** ** Helper functions *)

Definition get_next_token_line : M Z :=
  empty <- TokenQueue_is_empty ;;
  (if empty : bool then Error_throw (UnexpectedEndOfInput None) else ret tt) ;;
  p <- TokenQueue_peek ;;
  t <- deref p ;;
  ret (line t).

Definition match_and_discard_next_token (ty : TokenType) (txt : string)
  : M unit :=
  empty <- TokenQueue_is_empty ;;
  (if empty : bool then Error_throw (UnexpectedEndOfInput (Some txt))
   else ret tt) ;;
  p <- TokenQueue_remove ;;
  token <- deref p ;;
  (if negb (TokenType_eqb (type token) ty)
      || negb (token_str_eq (text token) txt)
   then l <- get_next_token_line ;;
        Error_throw (UnexpectedToken txt (text token) l)
   else ret tt) ;;
  Token_free p.

Definition discard_next_token : M unit :=
  empty <- TokenQueue_is_empty ;;
  (if empty : bool then Error_throw (UnexpectedEndOfInput None) else ret tt) ;;
  p <- TokenQueue_remove ;;
  Token_free p.

Definition check_next_token_type (ty : TokenType) : M bool :=
  empty <- TokenQueue_is_empty ;;
  if empty : bool then ret false
  else
    p <- TokenQueue_peek ;;
    token <- deref p ;;
    ret (TokenType_eqb (type token) ty).

Definition check_next_token (ty : TokenType) (txt : string) : M bool :=
  empty <- TokenQueue_is_empty ;;
  if empty : bool then ret false
  else
    p <- TokenQueue_peek ;;
    token <- deref p ;;
    ret (TokenType_eqb (type token) ty && token_str_eq (text token) txt).

Definition parse_type : M DecafType :=
  empty <- TokenQueue_is_empty ;;
  (if empty : bool then Error_throw (UnexpectedEndOfInput (Some "type"))
   else ret tt) ;;
  p <- TokenQueue_remove ;;
  token <- deref p ;;
  (if negb (TokenType_eqb (type token) KEY)
   then l <- get_next_token_line ;;
        Error_throw (InvalidType (text token) l)
   else ret tt) ;;
  t <- (if token_str_eq "int" (text token) then ret INT
        else if token_str_eq "bool" (text token) then ret BOOL
        else if token_str_eq "void" (text token) then ret VOID
        else l <- get_next_token_line ;;
             Error_throw (InvalidType (text token) l)) ;;
  Token_free p ;;
  ret t.

Definition parse_id : M string :=
  empty <- TokenQueue_is_empty ;;
  (if empty : bool then Error_throw (UnexpectedEndOfInput (Some "identifier"))
   else ret tt) ;;
  p <- TokenQueue_remove ;;
  token <- deref p ;;
  (if negb (TokenType_eqb (type token) ID)
   then l <- get_next_token_line ;;
        Error_throw (InvalidIdentifier (text token) l)
   else ret tt) ;;
  let buffer := snprintf MAX_ID_LEN (text token) in
  Token_free p ;;
  ret buffer.

(** ** Node-level parsing functions *)

Definition parse_vardecl : M ASTNode :=
  p <- TokenQueue_peek ;;
  t <- deref p ;;
  let line := line t in
  tokenType <- parse_type ;;
  name <- parse_id ;;
  match_and_discard_next_token SYM ";" ;;
  ret (VarDeclNode name tokenType false 1 line).

(** [LiteralNode_new_bool(strcmp(s, "false"), line)]: the [int] becomes a
    [bool], true when the texts differ. *)
Definition bool_of_strcmp_false (s : string) : bool := negb (strcmp0 s "false").

Definition breakout_helper : M NodePtr :=
  p <- TokenQueue_peek ;;
  t <- deref p ;;
  let line := line t in
  keyword <- TokenQueue_peek ;;
  k <- deref keyword ;;
  if strcmp0 (text k) "continue" then
    discard_next_token ;;
    match_and_discard_next_token SYM ";" ;;
    ret (Some (ContinueNode line))
  else if strcmp0 (text k) "break" then
    discard_next_token ;;
    match_and_discard_next_token SYM ";" ;;
    ret (Some (BreakNode line))
  else if strcmp0 (text k) "return" then
    discard_next_token ;;
    is_sym <- check_next_token_type SYM ;;
    if is_sym : bool then
      match_and_discard_next_token SYM ";" ;;
      ret (Some (ReturnNode None line))
    else
    is_id <- check_next_token_type ID ;;
    if is_id : bool then
      name <- parse_id ;;
      match_and_discard_next_token SYM ";" ;;
      ret (Some (ReturnNode (Some (LocationNode name None line)) line))
    else
    is_dec <- check_next_token_type DECLIT ;;
    if is_dec : bool then
      r <- TokenQueue_remove ;;
      tk <- deref r ;;
      let value := atoi (text tk) in
      match_and_discard_next_token SYM ";" ;;
      ret (Some (ReturnNode (Some (LiteralNode_int value line)) line))
    else
    is_hex <- check_next_token_type HEXLIT ;;
    if is_hex : bool then
      r <- TokenQueue_remove ;;
      tk <- deref r ;;
      let value := to_int (strtol (text tk) 16) in
      match_and_discard_next_token SYM ";" ;;
      ret (Some (ReturnNode (Some (LiteralNode_int value line)) line))
    else
    is_str <- check_next_token_type STRLIT ;;
    if is_str : bool then
      r <- TokenQueue_remove ;;
      tk <- deref r ;;
      parsed_str <- strip_quotes (text tk) ;;
      let str := LiteralNode_string parsed_str line in
      match_and_discard_next_token SYM ";" ;;
      ret (Some (ReturnNode (Some str) line))
    else
      Error_throw InvalidReturnExpression
  else
    ret None.

Definition parse_assignment : M ASTNode :=
  p <- TokenQueue_peek ;;
  t <- deref p ;;
  let line := line t in
  name <- parse_id ;;
  let left := LocationNode name None line in
  match_and_discard_next_token SYM "=" ;;
  token_value <- TokenQueue_peek ;;
  value <-
    (is_dec <- check_next_token_type DECLIT ;;
     if is_dec : bool then
       tv <- deref token_value ;;
       ret (LiteralNode_int (atoi (text tv)) line)
     else
     is_hex <- check_next_token_type HEXLIT ;;
     if is_hex : bool then
       tv <- deref token_value ;;
       ret (LiteralNode_int (to_int (strtol (text tv) 16)) line)
     else
     is_str <- check_next_token_type STRLIT ;;
     if is_str : bool then
       tv <- deref token_value ;;
       ret (LiteralNode_string (text tv) line)
     else
     is_true <- check_next_token KEY "true" ;;
     is_false <- (if is_true : bool then ret true
                  else check_next_token KEY "false") ;;
     if is_false : bool then
       tv <- deref token_value ;;
       ret (LiteralNode_bool (bool_of_strcmp_false (text tv)) line)
     else
     is_id <- check_next_token_type ID ;;
     if is_id : bool then
       tv <- deref token_value ;;
       ret (LocationNode (text tv) None line)
     else
       Error_throw InvalidAssignmentValue) ;;
  discard_next_token ;;
  match_and_discard_next_token SYM ";" ;;
  ret (AssignmentNode (Some left) (Some value) line).

Definition type_helper : M ASTNode :=
  peek <- TokenQueue_peek ;;
  pk <- deref peek ;;
  let line := line pk in
  if TokenType_eqb (type pk) ID then
    name <- parse_id ;;
    ret (LocationNode name None line)
  else if TokenType_eqb (type pk) DECLIT then
    r <- TokenQueue_remove ;;
    tk <- deref r ;;
    ret (LiteralNode_int (atoi (text tk)) line)
  else
  is_hex <- check_next_token_type HEXLIT ;;
  if is_hex : bool then
    r <- TokenQueue_remove ;;
    tk <- deref r ;;
    ret (LiteralNode_int (to_int (strtol (text tk) 16)) line)
  else
  is_true <- check_next_token KEY "true" ;;
  is_bool <- (if is_true : bool then ret true
              else check_next_token KEY "false") ;;
  if is_bool : bool then
    TokenQueue_remove ;;
    ret (LiteralNode_bool (bool_of_strcmp_false (text pk)) line)
  else
    (* the closing brace of the function is reached *)
    undefined NoReturnValue.

Definition op_type_helper : M BinaryOpType :=
  p <- TokenQueue_peek ;;
  t <- deref p ;;
  let value := strncpy (text t) (MAX_TOKEN_LEN - 1) in
  if strcmp0 value "||" then ret OROP
  else if strcmp0 value "&&" then ret ANDOP
  else if strcmp0 value "==" then ret EQOP
  else if strcmp0 value "!=" then ret NEQOP
  else if strcmp0 value "<" then ret LEOP
  else if strcmp0 value "<=" then ret LEOP
  else if strcmp0 value ">=" then ret GEOP
  else if strcmp0 value ">" then ret GTOP
  else if strcmp0 value "+" then ret ADDOP
  else if strcmp0 value "-" then ret SUBOP
  else if strcmp0 value "*" then ret MULOP
  else if strcmp0 value "/" then ret DIVOP
  else if strcmp0 value "%" then ret MODOP
  else Error_throw InvalidOperator.

(** [p->field] after the token [p] points to was released. *)
Definition deref_freed (p : option Token) : M Token := undefined UseAfterFree.

Definition parse_expression : M ASTNode :=
  p <- TokenQueue_peek ;;
  t <- deref p ;;
  let line := line t in
  is_not <- check_next_token SYM "!" ;;
  if is_not : bool then
    TokenQueue_remove ;;
    peek <- TokenQueue_peek ;;
    ty <- parse_type ;;
    match ty with
    | BOOL =>
        (* [parse_type] has released the token [peek] points to *)
        pk <- deref_freed peek ;;
        let value := bool_of_strcmp_false (text pk) in
        ret (UnaryOpNode NOTOP (Some (LiteralNode_bool value line)) line)
    | _ =>
        (* the closing brace of the function is reached *)
        undefined NoReturnValue
    end
  else
  is_true <- check_next_token KEY "true" ;;
  is_bool <- (if is_true : bool then ret true
              else check_next_token KEY "false") ;;
  if is_bool : bool then
    r <- TokenQueue_remove ;;
    peek <- deref r ;;
    ret (LiteralNode_bool (bool_of_strcmp_false (text peek)) line)
  else
    left <- type_helper ;;
    operator <- op_type_helper ;;
    right <- type_helper ;;
    ret (BinaryOpNode operator (Some left) (Some right) line).

(** The loops run on fuel; a queue of [n] tokens never needs more than
    [n + 1] rounds, since every round that goes on removes a token. *)
Definition fuel_of_queue : M nat := fun q => Ok (S (length q)) q.

(** [while (strcmp(next->text, "int") == 0 || strcmp(next->text, "bool") == 0)];
    [next] is the front of the queue each time the test runs. *)
Fixpoint parse_block_vars (fuel : nat) (vars : NodeList) : M NodeList :=
  match fuel with
  | O => out_of_fuel
  | S fuel' =>
      next <- TokenQueue_peek ;;
      n <- deref next ;;
      if strcmp0 (text n) "int" || strcmp0 (text n) "bool" then
        vardecl <- parse_vardecl ;;
        parse_block_vars fuel' (NodeList_add vars (Some vardecl))
      else ret vars
  end.

(** [while (next->type == ID)]. *)
Fixpoint parse_block_stmts (fuel : nat) (stmts : NodeList) : M NodeList :=
  match fuel with
  | O => out_of_fuel
  | S fuel' =>
      next <- TokenQueue_peek ;;
      n <- deref next ;;
      if TokenType_eqb (type n) ID then
        assignment <- parse_assignment ;;
        parse_block_stmts fuel' (NodeList_add stmts (Some assignment))
      else ret stmts
  end.

Definition parse_block : M ASTNode :=
  p <- TokenQueue_peek ;;
  t <- deref p ;;
  let line := line t in
  match_and_discard_next_token SYM "{" ;;
  fuel <- fuel_of_queue ;;
  vars <- parse_block_vars fuel NodeList_new ;;
  stmts <- parse_block_stmts fuel NodeList_new ;;
  breakOut <- breakout_helper ;;
  let stmts := NodeList_add stmts breakOut in
  match_and_discard_next_token SYM "}" ;;
  ret (BlockNode vars stmts line).

Definition parse_conditional : M ASTNode :=
  p <- TokenQueue_peek ;;
  t <- deref p ;;
  let line := line t in
  match_and_discard_next_token KEY "if" ;;
  match_and_discard_next_token SYM "(" ;;
  expression <- parse_expression ;;
  match_and_discard_next_token SYM ")" ;;
  block <- parse_block ;;
  has_else <- check_next_token KEY "else" ;;
  if has_else : bool then
    else_block <- parse_block ;;
    ret (ConditionalNode (Some expression) (Some block) (Some else_block) line)
  else
    ret (ConditionalNode (Some expression) (Some block) None line).

(** [while (!strcmp(peek->text, "int") || !strcmp(peek->text, "bool"))], left
    by [break] when no comma follows a parameter. *)
Fixpoint param_helper_loop (fuel : nat) (pl : ParameterList)
  : M ParameterList :=
  match fuel with
  | O => out_of_fuel
  | S fuel' =>
      peek <- TokenQueue_peek ;;
      pk <- deref peek ;;
      if strcmp0 (text pk) "int" || strcmp0 (text pk) "bool" then
        ty <- parse_type ;;
        name <- parse_id ;;
        let pl := ParameterList_add_new pl name ty in
        comma <- check_next_token SYM "," ;;
        if comma : bool then
          match_and_discard_next_token SYM "," ;;
          param_helper_loop fuel' pl
        else ret pl
      else ret pl
  end.

Definition param_helper : M ParameterList :=
  fuel <- fuel_of_queue ;;
  param_helper_loop fuel ParameterList_new.

Definition parse_function_decl : M ASTNode :=
  p <- TokenQueue_peek ;;
  t <- deref p ;;
  let line := line t in
  match_and_discard_next_token KEY "def" ;;
  returnType <- parse_type ;;
  name <- parse_id ;;
  match_and_discard_next_token SYM "(" ;;
  parameters <- param_helper ;;
  match_and_discard_next_token SYM ")" ;;
  block <- parse_block ;;
  ret (FuncDeclNode name returnType parameters (Some block) line).

(** [while (!TokenQueue_is_empty(input))]. *)
Fixpoint parse_program_loop (fuel : nat) (vars funcs : NodeList)
  : M (NodeList * NodeList) :=
  match fuel with
  | O => out_of_fuel
  | S fuel' =>
      empty <- TokenQueue_is_empty ;;
      if empty : bool then ret (vars, funcs)
      else
        next <- TokenQueue_peek ;;
        match next with
        | None => ret (vars, funcs)
        | Some _ =>
            is_def <- check_next_token KEY "def" ;;
            if is_def : bool then
              func_decl <- parse_function_decl ;;
              parse_program_loop fuel' vars
                (NodeList_add funcs (Some func_decl))
            else
              vardecl <- parse_vardecl ;;
              parse_program_loop fuel'
                (NodeList_add vars (Some vardecl)) funcs
        end
  end.

Definition parse_program : M ASTNode :=
  fuel <- fuel_of_queue ;;
  r <- parse_program_loop fuel NodeList_new NodeList_new ;;
  ret (ProgramNode (fst r) (snd r)).

Definition parse : M ASTNode := parse_program.

End Parser.

(** ** Token streams used below *)

Definition tok (ty : TokenType) (s : string) (ln : Z) : Token :=
  mkToken ty s ln.

(** A double quote, and a text between double quotes as the scanner hands
    a string literal to the parser. *)
Definition dquote : ascii := ascii_of_nat 34.
Definition quoted (s : string) : string :=
  String dquote (s ++ String dquote EmptyString)%string.

(** [int x] *)
Definition tokens_int_x (ln : Z) : TokenQueue :=
  [tok KEY "int" ln; tok ID "x" ln].

(** [def int f() { int x; x = 5; return x; }] *)
Definition tokens_def_f (ln : Z) : TokenQueue :=
  [tok KEY "def" ln; tok KEY "int" ln; tok ID "f" ln;
   tok SYM "(" ln; tok SYM ")" ln; tok SYM "{" ln;
   tok KEY "int" ln; tok ID "x" ln; tok SYM ";" ln;
   tok ID "x" ln; tok SYM "=" ln; tok DECLIT "5" ln; tok SYM ";" ln;
   tok KEY "return" ln; tok ID "x" ln; tok SYM ";" ln;
   tok SYM "}" ln].

(** [if (true) { break; } else { break; }], the [else] branch on the line
    after the [if]. *)
Definition tokens_if_else (ln : Z) : TokenQueue :=
  [tok KEY "if" ln; tok SYM "(" ln; tok KEY "true" ln; tok SYM ")" ln;
   tok SYM "{" ln; tok KEY "break" ln; tok SYM ";" ln; tok SYM "}" ln;
   tok KEY "else" (ln + 1); tok SYM "{" (ln + 1); tok KEY "break" (ln + 1);
   tok SYM ";" (ln + 1); tok SYM "}" (ln + 1)].

(** What [parse_type] accepts, as the specification lists it. *)
Definition type_keyword (s : string) : option DecafType :=
  if String.eqb s "int" then Some INT
  else if String.eqb s "bool" then Some BOOL
  else if String.eqb s "void" then Some VOID
  else None.

(** The operator table of the specification; ["<"] shares the tag of
    ["<="]. *)
Definition operator_table : list (string * BinaryOpType) :=
  [("||", OROP); ("&&", ANDOP); ("==", EQOP); ("!=", NEQOP);
   ("<", LEOP); ("<=", LEOP); (">=", GEOP); (">", GTOP);
   ("+", ADDOP); ("-", SUBOP); ("*", MULOP); ("/", DIVOP); ("%", MODOP)].

Fixpoint lookup_operator (tbl : list (string * BinaryOpType)) (s : string)
  : option BinaryOpType :=
  match tbl with
  | [] => None
  | (k, op) :: tbl' => if String.eqb s k then Some op else lookup_operator tbl' s
  end.

(** ** Shapes used in the statements below *)

(** What a helper throws once it has removed a token that does not fit: the
    line of its message is read by [get_next_token_line] from what is left
    of the queue, which fails itself when nothing is left. *)
Definition fail_after_removal {A : Type} (rest : TokenQueue)
  (e : Z -> ParseError) : outcome A :=
  match rest with
  | [] => Throw (UnexpectedEndOfInput None)
  | t' :: _ => Throw (e (line t'))
  end.

Definition keyword_of_type (ty : DecafType) : string :=
  match ty with INT => "int" | BOOL => "bool" | VOID => "void" end.

(** The tokens of [ty name ;] on line [l], and the node they stand for. *)
Definition vardecl_tokens (d : DecafType * string * Z) : TokenQueue :=
  let '(ty, name, l) := d in
  [tok KEY (keyword_of_type ty) l; tok ID name l; tok SYM ";" l].

Definition vardecl_node (d : DecafType * string * Z) : NodePtr :=
  let '(ty, name, l) := d in Some (VarDeclNode name ty false 1 l).

Definition is_def (t : Token) : bool :=
  TokenType_eqb (type t) KEY && token_str_eq (text t) "def".

Definition is_VarDecl (p : NodePtr) : bool :=
  match p with Some (VarDeclNode _ _ _ _ _) => true | _ => false end.

Definition is_FuncDecl (p : NodePtr) : bool :=
  match p with Some (FuncDeclNode _ _ _ _ _) => true | _ => false end.

Definition is_Assignment (p : NodePtr) : bool :=
  match p with Some (AssignmentNode _ _ _) => true | _ => false end.

(** A break, continue or return node on line [l]. *)
Definition is_terminal_on (l : Z) (p : NodePtr) : bool :=
  match p with
  | Some (BreakNode l') | Some (ContinueNode l') | Some (ReturnNode _ l') =>
      l' =? l
  | _ => false
  end.

(** The value of an assignment, read from the token [t] behind the [=];
    [l] is the line of the assignment. *)
Definition assignment_value (t : Token) (l : Z) : option ASTNode :=
  match type t with
  | DECLIT => Some (LiteralNode_int (atoi (text t)) l)
  | HEXLIT => Some (LiteralNode_int (to_int (strtol (text t) 16)) l)
  | STRLIT => Some (LiteralNode_string (text t) l)
  | KEY =>
      if String.eqb (text t) "true" || String.eqb (text t) "false"
      then Some (LiteralNode_bool (negb (String.eqb (text t) "false")) l)
      else None
  | ID => Some (LocationNode (text t) None l)
  | SYM => None
  end.

(** The operand of a binary expression, read from the token [t]. *)
Definition operand_node (MAX_ID_LEN : nat) (t : Token) : option ASTNode :=
  match type t with
  | ID => Some (LocationNode (snprintf MAX_ID_LEN (text t)) None (line t))
  | DECLIT => Some (LiteralNode_int (atoi (text t)) (line t))
  | HEXLIT => Some (LiteralNode_int (to_int (strtol (text t) 16)) (line t))
  | KEY =>
      if String.eqb (text t) "true" || String.eqb (text t) "false"
      then Some (LiteralNode_bool (negb (String.eqb (text t) "false"))
                   (line t))
      else None
  | STRLIT | SYM => None
  end.

(** The kinds the scanner gives: a token whose text is an operator symbol
    is a symbol token. *)
Definition operators_are_symbols (q : TokenQueue) : Prop :=
  forall t, In t q ->
            lookup_operator operator_table (text t) <> None -> type t = SYM.

(** The tokens of the parameters [ty name, ty name, ...] on line [l]. *)
Fixpoint param_tokens (l : Z) (ps : list (DecafType * string))
  : TokenQueue :=
  match ps with
  | [] => []
  | p :: ps' =>
      tok KEY (keyword_of_type (fst p)) l :: tok ID (snd p) l ::
      match ps' with
      | [] => []
      | _ :: _ => tok SYM "," l :: param_tokens l ps'
      end
  end.

Definition parameter_of (p : DecafType * string) : string * DecafType :=
  (snd p, fst p).

(** A parameter that [param_helper] reads: not [void], and its name within
    the identifier limit. *)
Definition parameter_ok (MAX_ID_LEN : nat) (p : DecafType * string) : Prop :=
  fst p <> VOID /\ (String.length (snd p) < MAX_ID_LEN)%nat.

(** The result of a rule changed by [f], the rest as it is. *)
Definition map_outcome {A B : Type} (f : A -> B) (o : outcome A)
  : outcome B :=
  match o with
  | Ok a r => Ok (f a) r
  | Throw e => Throw e
  | Undefined u => Undefined u
  | OutOfFuel => OutOfFuel
  end.

(** A Program node with one more variable, or function, at its front. *)
Definition add_variable (v : NodePtr) (node : ASTNode) : ASTNode :=
  match node with
  | ProgramNode vars funcs => ProgramNode (v :: vars) funcs
  | _ => node
  end.

Definition add_function (f : NodePtr) (node : ASTNode) : ASTNode :=
  match node with
  | ProgramNode vars funcs => ProgramNode vars (f :: funcs)
  | _ => node
  end.

(** A rule is defined when it never runs into undefined behaviour. *)
Definition defined {A : Type} (m : M A) : Prop :=
  forall q u, m q <> Undefined u.

(** ** What a rule does to the queue *)

(** A rule keeps the queue when the queue it leaves is no longer than the
    one it found, and consumes when it is shorter; it terminates when it
    never uses up the fuel of a loop. *)
Definition keeps {A : Type} (m : M A) : Prop :=
  forall q a r, m q = Ok a r -> (length r <= length q)%nat.

Definition consumes {A : Type} (m : M A) : Prop :=
  forall q a r, m q = Ok a r -> (length r < length q)%nat.

Definition terminates {A : Type} (m : M A) : Prop :=
  forall q, m q <> OutOfFuel.

(** * Properties *)

(** ** Texts *)

Lemma substring_0_length (s : string) (n : nat) :
  String.length (substring 0 n s) = Nat.min n (String.length s).
Proof.
  revert n; induction s as [|c s IH]; intros [|n]; simpl; auto.
Qed.

Lemma substring_0_all (s : string) (n : nat) :
  (String.length s <= n)%nat -> substring 0 n s = s.
Proof.
  revert n; induction s as [|c s IH]; intros [|n] H; simpl in *;
    try reflexivity; try lia.
  f_equal. apply IH. lia.
Qed.

Lemma snprintf_short (size : nat) (s : string) :
  (String.length s < size)%nat -> snprintf size s = s.
Proof. intros H. unfold snprintf. apply substring_0_all. lia. Qed.

Lemma eqb_length_neq (a b : string) :
  String.length a <> String.length b -> String.eqb a b = false.
Proof.
  intros H. apply String.eqb_neq. intros ->. now apply H.
Qed.

(** Comparing the copy [strncpy] made with a text shorter than the copy is
    long is comparing the original. *)
Lemma strcmp0_strncpy (s lit : string) (n : nat) :
  (String.length lit < n)%nat ->
  strcmp0 (strncpy s n) lit = strcmp0 s lit.
Proof.
  intros H. unfold strcmp0, strncpy.
  destruct (Nat.le_gt_cases (String.length s) n) as [Hs|Hs].
  - now rewrite substring_0_all.
  - rewrite !eqb_length_neq; trivial.
    + lia.
    + rewrite substring_0_length. lia.
Qed.

(** ** The program rule *)

(** C9: parsing [def int f() { int x; x = 5; return x; }] succeeds; the block
    of [f] has the one declaration of [x] in its declarations and two
    statements, the assignment and then the return, in its statement list. *)
Theorem parse_def_f_block (MAX_ID_LEN : nat) (ln : Z) :
  (1 < MAX_ID_LEN)%nat ->
  parse MAX_ID_LEN (tokens_def_f ln) =
  Ok (ProgramNode []
        [Some (FuncDeclNode "f" INT []
           (Some (BlockNode
              [Some (VarDeclNode "x" INT false 1 ln)]
              [Some (AssignmentNode (Some (LocationNode "x" None ln))
                                    (Some (LiteralNode_int 5 ln)) ln);
               Some (ReturnNode (Some (LocationNode "x" None ln)) ln)]
              ln))
           ln)])
     [].
Proof.
  intros H. cbv -[snprintf].
  rewrite !snprintf_short by (simpl; lia). reflexivity.
Qed.

Lemma parse_def_f_block_witness :
  parse 256 (tokens_def_f 1) =
  Ok (ProgramNode []
        [Some (FuncDeclNode "f" INT []
           (Some (BlockNode
              [Some (VarDeclNode "x" INT false 1 1)]
              [Some (AssignmentNode (Some (LocationNode "x" None 1))
                                    (Some (LiteralNode_int 5 1)) 1);
               Some (ReturnNode (Some (LocationNode "x" None 1)) 1)]
              1))
           1)])
     [].
Proof. apply (parse_def_f_block 256 1). lia. Defined.

(** C2 (as the code has it): parsing the empty token stream succeeds with
    a Program node that holds no declaration and no function; parsing a
    stream that is exactly one well-formed top-level variable declaration
    succeeds with a Program that holds that declaration and no function. *)
Theorem parse_empty_and_single_vardecl (MAX_ID_LEN : nat) :
  parse MAX_ID_LEN [] = Ok (ProgramNode [] []) [] /\
  forall (kw : string) (ty : DecafType) (name : string) (l1 l2 l3 : Z),
    type_keyword kw = Some ty ->
    (String.length name < MAX_ID_LEN)%nat ->
    parse MAX_ID_LEN [tok KEY kw l1; tok ID name l2; tok SYM ";" l3] =
    Ok (ProgramNode [Some (VarDeclNode name ty false 1 l1)] []) [].
Proof.
  split; [reflexivity|].
  intros kw ty name l1 l2 l3 Hkw Hname.
  unfold type_keyword in Hkw.
  destruct (String.eqb_spec kw "int") as [->|_];
    [|destruct (String.eqb_spec kw "bool") as [->|_];
      [|destruct (String.eqb_spec kw "void") as [->|_]; [|discriminate]]];
    injection Hkw as <-; cbv -[snprintf];
    now rewrite snprintf_short.
Qed.

Lemma parse_empty_and_single_vardecl_witness :
  parse 256 [] = Ok (ProgramNode [] []) [] /\
  parse 256 [tok KEY "int" 1; tok ID "x" 1; tok SYM ";" 1] =
  Ok (ProgramNode [Some (VarDeclNode "x" INT false 1 1)] []) [].
Proof.
  destruct (parse_empty_and_single_vardecl 256) as [Hempty Hdecl].
  split; [exact Hempty|].
  apply Hdecl; [reflexivity | simpl; lia].
Defined.

(** C2 as stated fails: on the empty stream [parse] throws nothing, and in
    particular no end-of-input failure. *)
Lemma parse_empty_is_not_a_failure :
  ~ exists (MAX_ID_LEN : nat) (e : ParseError), parse MAX_ID_LEN [] = Throw e.
Proof. intros (n & e & H). discriminate H. Qed.

(** C5 (as the code has it): parsing [int x], whose semicolon is missing,
    fails with the end-of-input failure that names the expected [;]. *)
Theorem parse_int_x_end_of_input (MAX_ID_LEN : nat) (ln : Z) :
  parse MAX_ID_LEN (tokens_int_x ln) = Throw (UnexpectedEndOfInput (Some ";")).
Proof. reflexivity. Qed.

(** C5 as stated fails: the failure on [int x] is no UnexpectedToken. *)
Lemma parse_int_x_is_not_unexpected_token :
  ~ exists (MAX_ID_LEN : nat) (expected found : string) (l : Z),
      parse MAX_ID_LEN (tokens_int_x 1) =
      Throw (UnexpectedToken expected found l).
Proof. intros (n & e & f & l & H). discriminate H. Qed.

(** ** The stream cursor *)

(** C6 (what the code does): when the front token does not match, the
    failure names the line of the token behind it, not the line of the
    token that failed to match; when no token is behind it, the failure is
    an end-of-input failure. *)
Theorem match_and_discard_names_following_line
  (ty : TokenType) (txt : string) (t t' : Token) (rest : TokenQueue) :
  match_and_discard_next_token ty txt (t :: t' :: rest) =
    (if TokenType_eqb (type t) ty && token_str_eq (text t) txt
     then Ok tt (t' :: rest)
     else Throw (UnexpectedToken txt (text t) (line t'))) /\
  match_and_discard_next_token ty txt [t] =
    (if TokenType_eqb (type t) ty && token_str_eq (text t) txt
     then Ok tt []
     else Throw (UnexpectedEndOfInput None)) /\
  match_and_discard_next_token SYM ";" [tok SYM "}" 1; tok ID "x" 2] =
    Throw (UnexpectedToken ";" "}" 2).
Proof.
  repeat split;
    unfold match_and_discard_next_token, bind; simpl;
    destruct (TokenType_eqb (type t) ty), (token_str_eq (text t) txt);
    reflexivity.
Qed.

(** ** Blocks and statements *)

(** C3 (what the code does): on [{ }] [parse_block] succeeds, and the
    statement list of the block holds one null entry and no Break, Continue
    or Return node. *)
Theorem parse_block_without_terminal
  (MAX_ID_LEN : nat) (l l' : Z) (rest : TokenQueue) :
  parse_block MAX_ID_LEN (tok SYM "{" l :: tok SYM "}" l' :: rest) =
  Ok (BlockNode [] [None] l) rest.
Proof. reflexivity. Qed.

(** C4 (what the code does): the string literal of an assignment is the
    text of the token as it is, quotes included; [return] strips them. *)
Theorem parse_assignment_string_keeps_quotes
  (MAX_ID_LEN : nat) (name s : string) (l1 l2 l3 l4 : Z) (rest : TokenQueue) :
  parse_assignment MAX_ID_LEN
    (tok ID name l1 :: tok SYM "=" l2 :: tok STRLIT s l3 :: tok SYM ";" l4
       :: rest) =
  Ok (AssignmentNode (Some (LocationNode (snprintf MAX_ID_LEN name) None l1))
                     (Some (LiteralNode_string s l1)) l1) rest /\
  quoted "hi" <> "hi" /\
  breakout_helper MAX_ID_LEN
    (tok KEY "return" l1 :: tok STRLIT (quoted "hi") l3 :: tok SYM ";" l4
       :: rest) =
  Ok (Some (ReturnNode (Some (LiteralNode_string "hi" l1)) l1)) rest.
Proof.
  split; [reflexivity|]. split; [discriminate | reflexivity].
Qed.

(** ** Expressions *)

(** C8 (what the code does): [!] followed by the keyword [true] or [false]
    is refused as an invalid type, on the line of the token behind the
    keyword; when nothing is behind it the failure is an end-of-input
    failure. *)
Theorem parse_expression_not_keyword_fails
  (MAX_ID_LEN MAX_TOKEN_LEN : nat) (l1 l2 : Z) (t : Token)
  (rest : TokenQueue) :
  parse_expression MAX_ID_LEN MAX_TOKEN_LEN
    (tok SYM "!" l1 :: tok KEY "true" l2 :: t :: rest) =
    Throw (InvalidType "true" (line t)) /\
  parse_expression MAX_ID_LEN MAX_TOKEN_LEN
    (tok SYM "!" l1 :: tok KEY "false" l2 :: t :: rest) =
    Throw (InvalidType "false" (line t)) /\
  parse_expression MAX_ID_LEN MAX_TOKEN_LEN
    [tok SYM "!" l1; tok KEY "true" l2] = Throw (UnexpectedEndOfInput None) /\
  parse_expression MAX_ID_LEN MAX_TOKEN_LEN
    [tok SYM "!" l1; tok KEY "false" l2] = Throw (UnexpectedEndOfInput None).
Proof. repeat split; reflexivity. Qed.

(** C10 (what the code does): on a symbol or a string literal
    [type_helper] reaches its closing brace without a [return], and no
    failure is thrown. *)
Theorem type_helper_falls_through
  (MAX_ID_LEN : nat) (txt : string) (l : Z) (rest : TokenQueue) :
  type_helper MAX_ID_LEN (tok SYM txt l :: rest) = Undefined NoReturnValue /\
  type_helper MAX_ID_LEN (tok STRLIT txt l :: rest) = Undefined NoReturnValue.
Proof. split; reflexivity. Qed.

(** ** Conditionals *)

(** C1 (what the code does): on [if (true) { break; } else { break; }] the
    [else] keyword is still at the front when the second block is parsed,
    and [parse_conditional] fails on it. *)
Theorem parse_conditional_else_fails
  (MAX_ID_LEN MAX_TOKEN_LEN : nat) (ln : Z) :
  parse_conditional MAX_ID_LEN MAX_TOKEN_LEN (tokens_if_else ln) =
  Throw (UnexpectedToken "{" "else" (ln + 1)).
Proof. reflexivity. Qed.

(** ** The operator helper *)

Lemma op_type_helper_lookup (MAX_TOKEN_LEN : nat) (t : Token)
  (rest : TokenQueue) :
  (3 < MAX_TOKEN_LEN)%nat ->
  op_type_helper MAX_TOKEN_LEN (t :: rest) =
  match lookup_operator operator_table (text t) with
  | Some op => Ok op (t :: rest)
  | None => Throw InvalidOperator
  end.
Proof.
  intros H. unfold op_type_helper, bind. simpl.
  rewrite !strcmp0_strncpy by (simpl; lia). unfold strcmp0.
  repeat match goal with
         | |- context [String.eqb (text t) ?k] =>
             destruct (String.eqb (text t) k)
         end; reflexivity.
Qed.

Lemma lookup_operator_None (tbl : list (string * BinaryOpType)) (s : string) :
  (forall op, ~ In (s, op) tbl) -> lookup_operator tbl s = None.
Proof.
  induction tbl as [|[k op] tbl IH]; intros H; simpl; [reflexivity|].
  destruct (String.eqb_spec s k) as [->|Hk].
  - exfalso. apply (H op). now left.
  - apply IH. intros op' Hin. apply (H op'). now right.
Qed.

(** C7: on a front token whose text is an operator symbol the helper
    returns the tag the table gives it (and leaves the queue as it is);
    ["<"] and ["<="] get the same tag; on every other text it throws
    InvalidOperator. *)
Theorem op_type_helper_maps_operators (MAX_TOKEN_LEN : nat) (t : Token)
  (rest : TokenQueue) :
  (3 < MAX_TOKEN_LEN)%nat ->
  (forall (sym : string) (op : BinaryOpType),
      In (sym, op) operator_table -> text t = sym ->
      op_type_helper MAX_TOKEN_LEN (t :: rest) = Ok op (t :: rest)) /\
  (forall (t' : Token) (rest' : TokenQueue),
      text t = "<" -> text t' = "<=" ->
      exists op : BinaryOpType,
        op_type_helper MAX_TOKEN_LEN (t :: rest) = Ok op (t :: rest) /\
        op_type_helper MAX_TOKEN_LEN (t' :: rest') = Ok op (t' :: rest')) /\
  ((forall op : BinaryOpType, ~ In (text t, op) operator_table) ->
      op_type_helper MAX_TOKEN_LEN (t :: rest) = Throw InvalidOperator).
Proof.
  intros H. repeat split.
  - intros sym op Hin Ht. rewrite op_type_helper_lookup by exact H.
    rewrite Ht. simpl in Hin.
    repeat (destruct Hin as [[= <- <-]|Hin]; [reflexivity|]).
    contradiction.
  - intros t' rest' Ht Ht'. exists LEOP.
    rewrite !op_type_helper_lookup by exact H.
    now rewrite Ht, Ht'.
  - intros Hnot. rewrite op_type_helper_lookup by exact H.
    now rewrite lookup_operator_None.
Qed.

Lemma op_type_helper_maps_operators_witness :
  op_type_helper 256 [tok SYM "<" 1; tok ID "y" 1] =
    Ok LEOP [tok SYM "<" 1; tok ID "y" 1] /\
  op_type_helper 256 [tok SYM "=" 1] = Throw InvalidOperator.
Proof.
  destruct (op_type_helper_maps_operators 256 (tok SYM "<" 1)
              [tok ID "y" 1]) as (Hop & _ & _); [lia|].
  destruct (op_type_helper_maps_operators 256 (tok SYM "=" 1) [])
    as (_ & _ & Hother); [lia|].
  split.
  - apply (Hop "<" LEOP); [simpl; tauto | reflexivity].
  - apply Hother. intros op Hin. simpl in Hin.
    repeat (destruct Hin as [Hin|Hin]; [discriminate Hin|]).
    exact Hin.
Defined.

(** X24: [op_type_helper] leaves the operator at the front of the queue,
    so the right operand of a binary expression is read from the operator
    symbol: on an identifier followed by an operator symbol,
    [parse_expression] ends without a value, whatever follows. *)
Lemma parse_expression_binary_undefined
  (MAX_ID_LEN MAX_TOKEN_LEN : nat) (x sym : string) (op : BinaryOpType)
  (l l' : Z) (rest : TokenQueue) :
  (3 < MAX_TOKEN_LEN)%nat ->
  In (sym, op) operator_table ->
  parse_expression MAX_ID_LEN MAX_TOKEN_LEN
    (tok ID x l :: tok SYM sym l' :: rest) = Undefined NoReturnValue.
Proof.
  intros H Hin. unfold parse_expression, bind. simpl.
  unfold bind. simpl.
  rewrite op_type_helper_lookup by exact H. simpl in Hin |- *.
  repeat (destruct Hin as [[= <- <-]|Hin]; [reflexivity|]).
  contradiction.
Qed.

(** ** The rules stop, and remove what they parse *)

Lemma bind_Ok {A B : Type} (m : M A) (f : A -> M B) (q : TokenQueue)
  (b : B) (r : TokenQueue) :
  bind m f q = Ok b r -> exists a q', m q = Ok a q' /\ f a q' = Ok b r.
Proof.
  unfold bind. destruct (m q) as [a q'| | |]; try discriminate. eauto.
Qed.

Lemma consumes_keeps {A : Type} (m : M A) : consumes m -> keeps m.
Proof. intros H q a r Hm. apply H in Hm. lia. Qed.

Lemma keeps_bind {A B : Type} (m : M A) (f : A -> M B) :
  keeps m -> (forall a, keeps (f a)) -> keeps (bind m f).
Proof.
  intros Hm Hf q b r H. apply bind_Ok in H as (a & q' & H1 & H2).
  apply Hm in H1. apply Hf in H2. lia.
Qed.

Lemma consumes_bind_l {A B : Type} (m : M A) (f : A -> M B) :
  consumes m -> (forall a, keeps (f a)) -> consumes (bind m f).
Proof.
  intros Hm Hf q b r H. apply bind_Ok in H as (a & q' & H1 & H2).
  apply Hm in H1. apply Hf in H2. lia.
Qed.

Lemma consumes_bind_r {A B : Type} (m : M A) (f : A -> M B) :
  keeps m -> (forall a, consumes (f a)) -> consumes (bind m f).
Proof.
  intros Hm Hf q b r H. apply bind_Ok in H as (a & q' & H1 & H2).
  apply Hm in H1. apply Hf in H2. lia.
Qed.

Lemma terminates_bind {A B : Type} (m : M A) (f : A -> M B) :
  terminates m -> (forall a, terminates (f a)) -> terminates (bind m f).
Proof.
  intros Hm Hf q. unfold bind. specialize (Hm q).
  destruct (m q) as [a q'| | |]; try discriminate; [apply Hf | contradiction].
Qed.

Lemma keeps_ret {A : Type} (a : A) : keeps (ret a).
Proof. intros q a' r [= _ <-]. lia. Qed.

Lemma keeps_Error_throw {A : Type} (e : ParseError) :
  keeps (@Error_throw A e).
Proof. intros q a r [=]. Qed.

Lemma keeps_undefined {A : Type} (u : UndefinedBehaviour) :
  keeps (@undefined A u).
Proof. intros q a r [=]. Qed.

Lemma consumes_Error_throw {A : Type} (e : ParseError) :
  consumes (@Error_throw A e).
Proof. intros q a r [=]. Qed.

Lemma consumes_undefined {A : Type} (u : UndefinedBehaviour) :
  consumes (@undefined A u).
Proof. intros q a r [=]. Qed.

Lemma keeps_out_of_fuel {A : Type} : keeps (@out_of_fuel A).
Proof. intros q a r [=]. Qed.

Lemma keeps_TokenQueue_is_empty : keeps TokenQueue_is_empty.
Proof. intros q a r [= _ <-]. lia. Qed.

Lemma keeps_TokenQueue_peek : keeps TokenQueue_peek.
Proof. intros q a r [= _ <-]. lia. Qed.

Lemma keeps_TokenQueue_remove : keeps TokenQueue_remove.
Proof. intros [|t q] a r [= _ <-]; simpl; lia. Qed.

Lemma keeps_deref (p : option Token) : keeps (deref p).
Proof. destruct p; [apply keeps_ret | apply keeps_undefined]. Qed.

Lemma keeps_deref_freed (p : option Token) : keeps (deref_freed p).
Proof. apply keeps_undefined. Qed.

Lemma keeps_Token_free (p : option Token) : keeps (Token_free p).
Proof. apply keeps_ret. Qed.

Lemma keeps_fuel_of_queue : keeps fuel_of_queue.
Proof. intros q a r [= _ <-]. lia. Qed.

Lemma keeps_strip_quotes (s : string) : keeps (strip_quotes s).
Proof.
  unfold strip_quotes. destruct (_ <? _)%nat;
    [apply keeps_undefined | apply keeps_ret].
Qed.

Lemma terminates_ret {A : Type} (a : A) : terminates (ret a).
Proof. intros q; discriminate. Qed.

Lemma terminates_Error_throw {A : Type} (e : ParseError) :
  terminates (@Error_throw A e).
Proof. intros q; discriminate. Qed.

Lemma terminates_undefined {A : Type} (u : UndefinedBehaviour) :
  terminates (@undefined A u).
Proof. intros q; discriminate. Qed.

Lemma terminates_TokenQueue_is_empty : terminates TokenQueue_is_empty.
Proof. intros q; discriminate. Qed.

Lemma terminates_TokenQueue_peek : terminates TokenQueue_peek.
Proof. intros q; discriminate. Qed.

Lemma terminates_TokenQueue_remove : terminates TokenQueue_remove.
Proof. intros q; discriminate. Qed.

Lemma terminates_deref (p : option Token) : terminates (deref p).
Proof. destruct p; intros q; discriminate. Qed.

Lemma terminates_deref_freed (p : option Token) : terminates (deref_freed p).
Proof. intros q; discriminate. Qed.

Lemma terminates_Token_free (p : option Token) : terminates (Token_free p).
Proof. intros q; discriminate. Qed.

Lemma terminates_fuel_of_queue : terminates fuel_of_queue.
Proof. intros q; discriminate. Qed.

Lemma terminates_strip_quotes (s : string) : terminates (strip_quotes s).
Proof. unfold strip_quotes. destruct (_ <? _)%nat; intros q; discriminate. Qed.

Create HintDb parser discriminated.

#[local] Hint Resolve keeps_ret keeps_Error_throw keeps_undefined
  keeps_out_of_fuel keeps_TokenQueue_is_empty keeps_TokenQueue_peek
  keeps_TokenQueue_remove keeps_deref keeps_deref_freed keeps_Token_free
  keeps_fuel_of_queue keeps_strip_quotes consumes_Error_throw
  consumes_undefined terminates_ret terminates_Error_throw
  terminates_undefined terminates_TokenQueue_is_empty
  terminates_TokenQueue_peek terminates_TokenQueue_remove terminates_deref
  terminates_deref_freed terminates_Token_free terminates_fuel_of_queue
  terminates_strip_quotes : parser.

(** One step through the body of a rule. *)
Ltac rule_step :=
  first
    [ solve [auto with parser]
    | progress cbv beta zeta
    | apply keeps_bind; [| intros ?]
    | apply terminates_bind; [| intros ?]
    | match goal with
      | |- keeps (if ?b then _ else _) => destruct b
      | |- terminates (if ?b then _ else _) => destruct b
      | |- consumes (if ?b then _ else _) => destruct b
      | |- keeps (match ?x with _ => _ end) => destruct x
      | |- terminates (match ?x with _ => _ end) => destruct x
      end
    | apply consumes_keeps; solve [auto with parser] ].

Ltac rule_tac := repeat rule_step.

(** The first rule of a body that removes a token makes the body consume. *)
Ltac consumes_tac :=
  cbv beta zeta;
  first
    [ solve [auto with parser]
    | apply consumes_bind_l; [solve [auto with parser] | intros ?; rule_tac]
    | apply consumes_bind_r;
      [solve [auto with parser] | intros ?; consumes_tac] ].

Section Termination.

Variable MAX_ID_LEN : nat.
Variable MAX_TOKEN_LEN : nat.

Lemma keeps_get_next_token_line : keeps get_next_token_line.
Proof. unfold get_next_token_line. rule_tac. Qed.

Lemma terminates_get_next_token_line : terminates get_next_token_line.
Proof. unfold get_next_token_line. rule_tac. Qed.

Lemma keeps_check_next_token_type ty : keeps (check_next_token_type ty).
Proof. unfold check_next_token_type. rule_tac. Qed.

Lemma terminates_check_next_token_type ty :
  terminates (check_next_token_type ty).
Proof. unfold check_next_token_type. rule_tac. Qed.

Lemma keeps_check_next_token ty txt : keeps (check_next_token ty txt).
Proof. unfold check_next_token. rule_tac. Qed.

Lemma terminates_check_next_token ty txt :
  terminates (check_next_token ty txt).
Proof. unfold check_next_token. rule_tac. Qed.

Hint Resolve keeps_get_next_token_line terminates_get_next_token_line
  keeps_check_next_token_type terminates_check_next_token_type
  keeps_check_next_token terminates_check_next_token : parser.

(** A token that is removed and read was at the front of the queue. *)
Lemma consumes_remove_deref {A : Type} (f : option Token -> Token -> M A) :
  (forall p t, keeps (f p t)) ->
  consumes (p <- TokenQueue_remove ;; t <- deref p ;; f p t).
Proof.
  intros Hf [|t q] a r; unfold bind; simpl; [discriminate|].
  intros H. apply Hf in H. lia.
Qed.

Lemma consumes_match_and_discard_next_token ty txt :
  consumes (match_and_discard_next_token ty txt).
Proof.
  unfold match_and_discard_next_token.
  apply consumes_bind_r; [auto with parser | intros ?].
  apply consumes_bind_r; [rule_tac | intros ?].
  apply consumes_remove_deref. intros. rule_tac.
Qed.

Lemma terminates_match_and_discard_next_token ty txt :
  terminates (match_and_discard_next_token ty txt).
Proof. unfold match_and_discard_next_token. rule_tac. Qed.

Lemma consumes_discard_next_token : consumes discard_next_token.
Proof.
  intros [|t q] x r; unfold discard_next_token, bind; simpl;
    [discriminate | intros [= _ <-]; lia].
Qed.

Lemma terminates_discard_next_token : terminates discard_next_token.
Proof. unfold discard_next_token. rule_tac. Qed.

Lemma consumes_parse_type : consumes parse_type.
Proof.
  unfold parse_type.
  apply consumes_bind_r; [auto with parser | intros ?].
  apply consumes_bind_r; [rule_tac | intros ?].
  apply consumes_remove_deref. intros. rule_tac.
Qed.

Lemma terminates_parse_type : terminates parse_type.
Proof. unfold parse_type. rule_tac. Qed.

Lemma consumes_parse_id : consumes (parse_id MAX_ID_LEN).
Proof.
  unfold parse_id.
  apply consumes_bind_r; [auto with parser | intros ?].
  apply consumes_bind_r; [rule_tac | intros ?].
  apply consumes_remove_deref. intros. rule_tac.
Qed.

Lemma terminates_parse_id : terminates (parse_id MAX_ID_LEN).
Proof. unfold parse_id. rule_tac. Qed.

Hint Resolve consumes_match_and_discard_next_token
  terminates_match_and_discard_next_token consumes_discard_next_token
  terminates_discard_next_token consumes_parse_type terminates_parse_type
  consumes_parse_id terminates_parse_id : parser.

Lemma consumes_parse_vardecl : consumes (parse_vardecl MAX_ID_LEN).
Proof. unfold parse_vardecl. consumes_tac. Qed.

Lemma terminates_parse_vardecl : terminates (parse_vardecl MAX_ID_LEN).
Proof. unfold parse_vardecl. rule_tac. Qed.

Lemma consumes_parse_assignment : consumes (parse_assignment MAX_ID_LEN).
Proof. unfold parse_assignment. consumes_tac. Qed.

Lemma terminates_parse_assignment : terminates (parse_assignment MAX_ID_LEN).
Proof. unfold parse_assignment. rule_tac. Qed.

Lemma keeps_breakout_helper : keeps (breakout_helper MAX_ID_LEN).
Proof. unfold breakout_helper. rule_tac. Qed.

Lemma terminates_breakout_helper : terminates (breakout_helper MAX_ID_LEN).
Proof. unfold breakout_helper. rule_tac. Qed.

Hint Resolve consumes_parse_vardecl terminates_parse_vardecl
  consumes_parse_assignment terminates_parse_assignment
  keeps_breakout_helper terminates_breakout_helper : parser.

Lemma bind_fuel {A B : Type} (m : M A) (f : A -> M B) (q : TokenQueue) :
  m q <> OutOfFuel ->
  (forall a q', m q = Ok a q' -> f a q' <> OutOfFuel) ->
  bind m f q <> OutOfFuel.
Proof.
  intros Hm Hf. unfold bind.
  destruct (m q) as [a q'| | |]; try discriminate;
    [now apply Hf | now contradiction Hm].
Qed.

(** What is left of a rule body after the loops stops by itself. *)
Ltac finish_terminates :=
  match goal with
  | |- ?m ?q <> OutOfFuel =>
      let T := fresh "T" in
      assert (T : terminates m) by rule_tac; apply T
  end.

(** *** The loops of [parse_block] *)

Lemma keeps_parse_block_vars fuel vars :
  keeps (parse_block_vars MAX_ID_LEN fuel vars).
Proof.
  revert vars; induction fuel as [|fuel IH]; intros vars; simpl; rule_tac.
Qed.

Lemma keeps_parse_block_stmts fuel stmts :
  keeps (parse_block_stmts MAX_ID_LEN fuel stmts).
Proof.
  revert stmts; induction fuel as [|fuel IH]; intros stmts; simpl; rule_tac.
Qed.

Lemma parse_block_vars_fuel fuel vars q :
  (length q < fuel)%nat ->
  parse_block_vars MAX_ID_LEN fuel vars q <> OutOfFuel.
Proof.
  revert vars q; induction fuel as [|fuel IH]; intros vars q Hq; [lia|].
  simpl.
  apply bind_fuel; [apply terminates_TokenQueue_peek | intros p q1 [= <- <-]].
  apply bind_fuel; [apply terminates_deref | intros n q1 Hn].
  destruct q as [|t q]; [discriminate Hn | injection Hn as <- <-].
  destruct (_ || _); [|discriminate].
  apply bind_fuel; [apply terminates_parse_vardecl | intros v q' Hv].
  apply IH. apply consumes_parse_vardecl in Hv. simpl in *. lia.
Qed.

Lemma parse_block_stmts_fuel fuel stmts q :
  (length q < fuel)%nat ->
  parse_block_stmts MAX_ID_LEN fuel stmts q <> OutOfFuel.
Proof.
  revert stmts q; induction fuel as [|fuel IH]; intros stmts q Hq; [lia|].
  simpl.
  apply bind_fuel; [apply terminates_TokenQueue_peek | intros p q1 [= <- <-]].
  apply bind_fuel; [apply terminates_deref | intros n q1 Hn].
  destruct q as [|t q]; [discriminate Hn | injection Hn as <- <-].
  destruct (TokenType_eqb _ _); [|discriminate].
  apply bind_fuel; [apply terminates_parse_assignment | intros v q' Hv].
  apply IH. apply consumes_parse_assignment in Hv. simpl in *. lia.
Qed.

Hint Resolve keeps_parse_block_vars keeps_parse_block_stmts : parser.

Lemma consumes_parse_block : consumes (parse_block MAX_ID_LEN).
Proof. unfold parse_block. consumes_tac. Qed.

Lemma terminates_parse_block : terminates (parse_block MAX_ID_LEN).
Proof.
  intros q. unfold parse_block.
  apply bind_fuel; [apply terminates_TokenQueue_peek | intros p q1 _].
  apply bind_fuel; [apply terminates_deref | intros t q2 _].
  cbv zeta.
  apply bind_fuel;
    [apply terminates_match_and_discard_next_token | intros u q3 _].
  apply bind_fuel; [discriminate | intros fuel q4 [= <- <-]].
  apply bind_fuel; [apply parse_block_vars_fuel; lia | intros vars q5 Hv].
  apply keeps_parse_block_vars in Hv.
  apply bind_fuel; [apply parse_block_stmts_fuel; lia | intros stmts q6 _].
  finish_terminates.
Qed.

Hint Resolve consumes_parse_block terminates_parse_block : parser.

(** *** The loop of [param_helper] *)

Lemma keeps_param_helper_loop fuel pl :
  keeps (param_helper_loop MAX_ID_LEN fuel pl).
Proof.
  revert pl; induction fuel as [|fuel IH]; intros pl; simpl; rule_tac.
Qed.

Lemma param_helper_loop_fuel fuel pl q :
  (length q < fuel)%nat ->
  param_helper_loop MAX_ID_LEN fuel pl q <> OutOfFuel.
Proof.
  revert pl q; induction fuel as [|fuel IH]; intros pl q Hq; [lia|].
  simpl.
  apply bind_fuel; [apply terminates_TokenQueue_peek | intros p q1 [= <- <-]].
  apply bind_fuel; [apply terminates_deref | intros n q1 Hn].
  destruct q as [|t q]; [discriminate Hn | injection Hn as <- <-].
  destruct (_ || _); [|discriminate].
  apply bind_fuel; [apply terminates_parse_type | intros ty q1 Hty].
  apply consumes_parse_type in Hty.
  apply bind_fuel; [apply terminates_parse_id | intros name q2 Hname].
  apply consumes_parse_id in Hname.
  apply bind_fuel; [apply terminates_check_next_token | intros c q3 Hc].
  apply keeps_check_next_token in Hc.
  destruct c; [|discriminate].
  apply bind_fuel;
    [apply terminates_match_and_discard_next_token | intros u q4 Hu].
  apply consumes_match_and_discard_next_token in Hu.
  apply IH. simpl in *. lia.
Qed.

Hint Resolve keeps_param_helper_loop : parser.

Lemma keeps_param_helper : keeps (param_helper MAX_ID_LEN).
Proof. unfold param_helper. rule_tac. Qed.

Lemma terminates_param_helper : terminates (param_helper MAX_ID_LEN).
Proof.
  intros q. unfold param_helper.
  apply bind_fuel; [discriminate | intros fuel q' [= <- <-]].
  apply param_helper_loop_fuel. lia.
Qed.

Hint Resolve keeps_param_helper terminates_param_helper : parser.

Lemma consumes_parse_function_decl :
  consumes (parse_function_decl MAX_ID_LEN).
Proof. unfold parse_function_decl. consumes_tac. Qed.

Lemma terminates_parse_function_decl :
  terminates (parse_function_decl MAX_ID_LEN).
Proof. unfold parse_function_decl. rule_tac. Qed.

(** *** The loop of [parse_program] *)

Lemma parse_program_loop_fuel fuel vars funcs q :
  (length q < fuel)%nat ->
  parse_program_loop MAX_ID_LEN fuel vars funcs q <> OutOfFuel.
Proof.
  revert vars funcs q; induction fuel as [|fuel IH]; intros vars funcs q Hq;
    [lia|].
  simpl.
  apply bind_fuel;
    [apply terminates_TokenQueue_is_empty | intros e q1 [= <- <-]].
  destruct q as [|t q]; [discriminate|].
  apply bind_fuel; [apply terminates_TokenQueue_peek | intros p q1 [= <- <-]].
  simpl.
  apply bind_fuel; [apply terminates_check_next_token | intros c q1 Hc].
  apply keeps_check_next_token in Hc.
  destruct c.
  - apply bind_fuel; [apply terminates_parse_function_decl | intros f q2 Hf].
    apply IH. apply consumes_parse_function_decl in Hf. simpl in *. lia.
  - apply bind_fuel; [apply terminates_parse_vardecl | intros v q2 Hv].
    apply IH. apply consumes_parse_vardecl in Hv. simpl in *. lia.
Qed.

(** [parse] stops on every token stream: the fuel of the loops is never
    used up. *)
Theorem parse_terminates : terminates (parse MAX_ID_LEN).
Proof.
  intros q. unfold parse, parse_program.
  apply bind_fuel; [discriminate | intros fuel q' [= <- <-]].
  apply bind_fuel; [apply parse_program_loop_fuel; lia | intros r q' _].
  discriminate.
Qed.

(** *** Expressions and conditionals *)

Lemma terminates_type_helper : terminates (type_helper MAX_ID_LEN).
Proof. unfold type_helper. rule_tac. Qed.

Lemma terminates_op_type_helper : terminates (op_type_helper MAX_TOKEN_LEN).
Proof. unfold op_type_helper. rule_tac. Qed.

Hint Resolve terminates_type_helper terminates_op_type_helper : parser.

Lemma terminates_parse_expression :
  terminates (parse_expression MAX_ID_LEN MAX_TOKEN_LEN).
Proof. unfold parse_expression. rule_tac. Qed.

Hint Resolve terminates_parse_expression : parser.

Lemma terminates_parse_conditional :
  terminates (parse_conditional MAX_ID_LEN MAX_TOKEN_LEN).
Proof. unfold parse_conditional. rule_tac. Qed.

End Termination.

(** ** The else branch is never parsed *)

Lemma check_next_token_eq (ty : TokenType) (txt : string) (q : TokenQueue) :
  check_next_token ty txt q =
  Ok (match q with
      | [] => false
      | t :: _ => TokenType_eqb (type t) ty && token_str_eq (text t) txt
      end) q.
Proof. destruct q; reflexivity. Qed.

Lemma match_and_discard_next_token_Ok (ty : TokenType) (txt : string)
  (q : TokenQueue) (u : unit) (r : TokenQueue) :
  match_and_discard_next_token ty txt q = Ok u r ->
  exists t, q = t :: r /\ TokenType_eqb (type t) ty = true
            /\ token_str_eq (text t) txt = true.
Proof.
  destruct q as [|t q]; [discriminate|].
  unfold match_and_discard_next_token, bind; simpl.
  destruct (TokenType_eqb (type t) ty) eqn:Hty,
    (token_str_eq (text t) txt) eqn:Htxt; simpl;
    try (destruct q; discriminate).
  intros [= <- <-]. exists t. auto.
Qed.

Lemma parse_block_Ok_front (MAX_ID_LEN : nat) (q : TokenQueue)
  (b : ASTNode) (r : TokenQueue) :
  parse_block MAX_ID_LEN q = Ok b r ->
  exists t rest, q = t :: rest /\ TokenType_eqb (type t) SYM = true.
Proof.
  unfold parse_block. intros H.
  apply bind_Ok in H as (p & q1 & [= <- <-] & H).
  apply bind_Ok in H as (t & q2 & Ht & H).
  destruct q as [|t0 q]; [discriminate Ht | injection Ht as <- <-].
  apply bind_Ok in H as (u & q3 & Hm & _).
  apply match_and_discard_next_token_Ok in Hm as (t' & [= <- <-] & Hty & _).
  eauto.
Qed.

(** X22: whatever the token stream, a node that [parse_conditional]
    returns is a Conditional with a null else-branch: with an [else] at the
    front the second [parse_block] cannot succeed. *)
Lemma parse_conditional_else_branch_null (MAX_ID_LEN MAX_TOKEN_LEN : nat)
  (q : TokenQueue) (node : ASTNode) (r : TokenQueue) :
  parse_conditional MAX_ID_LEN MAX_TOKEN_LEN q = Ok node r ->
  exists c b l, node = ConditionalNode c b None l.
Proof.
  unfold parse_conditional. intros H.
  apply bind_Ok in H as (p & q1 & _ & H).
  apply bind_Ok in H as (t & q2 & _ & H). cbv zeta in H.
  apply bind_Ok in H as (u1 & q3 & _ & H).
  apply bind_Ok in H as (u2 & q4 & _ & H).
  apply bind_Ok in H as (e & q5 & _ & H).
  apply bind_Ok in H as (u3 & q6 & _ & H).
  apply bind_Ok in H as (b & q7 & _ & H).
  apply bind_Ok in H as (has_else & q8 & Hc & H).
  rewrite check_next_token_eq in Hc. injection Hc as <- <-.
  destruct q7 as [|t7 q7].
  - injection H as <- _. eauto.
  - destruct (TokenType_eqb (type t7) KEY) eqn:Hkey; simpl in H.
    + destruct (token_str_eq (text t7) "else").
      * apply bind_Ok in H as (eb & q9 & Hb & _).
        apply parse_block_Ok_front in Hb as (t' & rest & [= <- <-] & Hsym).
        destruct (type t7); discriminate.
      * injection H as <- _. eauto.
    + injection H as <- _. eauto.
Qed.

(** Without [else] the conditional is parsed, its else-branch null. *)
Example parse_conditional_without_else
  (MAX_ID_LEN MAX_TOKEN_LEN : nat) (ln : Z) :
  parse_conditional MAX_ID_LEN MAX_TOKEN_LEN
    [tok KEY "if" ln; tok SYM "(" ln; tok KEY "true" ln; tok SYM ")" ln;
     tok SYM "{" ln; tok KEY "break" ln; tok SYM ";" ln; tok SYM "}" ln] =
  Ok (ConditionalNode (Some (LiteralNode_bool true ln))
        (Some (BlockNode [] [Some (BreakNode ln)] ln)) None ln) [].
Proof. reflexivity. Qed.

(** ** The C library functions on the literals of the scanner *)

Example atoi_5 : atoi "5" = 5.
Proof. reflexivity. Qed.

Example atoi_negative : atoi "-12" = -12.
Proof. reflexivity. Qed.

Example strtol_hex : strtol "0x1F" 16 = 31.
Proof. reflexivity. Qed.

Example strtol_hex_clamped :
  strtol "0xFFFFFFFFFFFFFFFFFF" 16 = LONG_MAX.
Proof. reflexivity. Qed.

Example to_int_wraps : to_int (strtol "0xFFFFFFFF" 16) = -1.
Proof. reflexivity. Qed.

(** The other values of an assignment: a hex literal is read in base 16,
    and a front token that is no value is refused. *)
Example parse_assignment_hex (MAX_ID_LEN : nat) (ln : Z) :
  parse_assignment MAX_ID_LEN
    [tok ID "x" ln; tok SYM "=" ln; tok HEXLIT "0x1F" ln; tok SYM ";" ln] =
  Ok (AssignmentNode (Some (LocationNode (snprintf MAX_ID_LEN "x") None ln))
                     (Some (LiteralNode_int 31 ln)) ln) [].
Proof. reflexivity. Qed.

Lemma parse_assignment_invalid_value (MAX_ID_LEN : nat) (name txt : string)
  (l1 l2 l3 : Z) (rest : TokenQueue) :
  parse_assignment MAX_ID_LEN
    (tok ID name l1 :: tok SYM "=" l2 :: tok SYM txt l3 :: rest) =
  Throw InvalidAssignmentValue.
Proof. reflexivity. Qed.

(** ** Where the rules have no branch *)

(** On a front token that is none of [continue], [break], [return] the
    helper returns a null pointer and leaves the queue as it is. *)
Lemma breakout_helper_null (MAX_ID_LEN : nat) (t : Token)
  (rest : TokenQueue) :
  text t <> "continue" -> text t <> "break" -> text t <> "return" ->
  breakout_helper MAX_ID_LEN (t :: rest) = Ok None (t :: rest).
Proof.
  intros Hc Hb Hr. unfold breakout_helper, bind, strcmp0. simpl.
  apply String.eqb_neq in Hc, Hb, Hr. now rewrite Hc, Hb, Hr.
Qed.

(** X23: no token stream makes [parse_expression] return a UnaryOp node:
    after [!] the rule throws, reads a released token or ends without a
    value. *)
Lemma parse_expression_never_unary (MAX_ID_LEN MAX_TOKEN_LEN : nat)
  (q : TokenQueue) (node : ASTNode) (r : TokenQueue) :
  parse_expression MAX_ID_LEN MAX_TOKEN_LEN q = Ok node r ->
  forall op c l, node <> UnaryOpNode op c l.
Proof.
  unfold parse_expression. intros H op c l.
  apply bind_Ok in H as (p & q1 & _ & H).
  apply bind_Ok in H as (t & q2 & _ & H). cbv zeta in H.
  apply bind_Ok in H as ([|] & q3 & _ & H).
  - apply bind_Ok in H as (x & q4 & _ & H).
    apply bind_Ok in H as (peek & q5 & _ & H).
    apply bind_Ok in H as ([| |] & q6 & _ & H); discriminate H.
  - apply bind_Ok in H as (is_true & q4 & _ & H).
    apply bind_Ok in H as ([|] & q5 & _ & H).
    + apply bind_Ok in H as (x & q6 & _ & H).
      apply bind_Ok in H as (pk & q7 & _ & [= <- _]). discriminate.
    + apply bind_Ok in H as (left & q6 & _ & H).
      apply bind_Ok in H as (o & q7 & _ & H).
      apply bind_Ok in H as (right & q8 & _ & [= <- _]). discriminate.
Qed.

Example parse_expression_not_bool_type (MAX_ID_LEN MAX_TOKEN_LEN : nat)
  (ln : Z) (rest : TokenQueue) :
  parse_expression MAX_ID_LEN MAX_TOKEN_LEN
    (tok SYM "!" ln :: tok KEY "bool" ln :: rest) = Undefined UseAfterFree /\
  parse_expression MAX_ID_LEN MAX_TOKEN_LEN
    (tok SYM "!" ln :: tok KEY "int" ln :: rest) = Undefined NoReturnValue.
Proof. split; reflexivity. Qed.

(** ** The helpers on a queue with a front token *)

(** Runs the queue primitives of a rule body on the queue at hand. *)
Ltac run_rule :=
  cbv [bind ret Error_throw undefined TokenQueue_is_empty TokenQueue_peek
       TokenQueue_remove deref Token_free hd_error tl];
  cbn [negb andb orb].

Lemma get_next_token_line_throw {A : Type} (e : Z -> ParseError)
  (q : TokenQueue) :
  (l <- get_next_token_line ;; @Error_throw A (e l)) q =
  fail_after_removal q e.
Proof. destruct q; reflexivity. Qed.

Lemma match_and_discard_next_token_cons (ty : TokenType) (txt : string)
  (t : Token) (q : TokenQueue) :
  match_and_discard_next_token ty txt (t :: q) =
  if TokenType_eqb (type t) ty && token_str_eq (text t) txt
  then Ok tt q
  else fail_after_removal q (UnexpectedToken txt (text t)).
Proof.
  unfold match_and_discard_next_token. run_rule.
  destruct (TokenType_eqb (type t) ty), (token_str_eq (text t) txt);
    cbn [negb andb orb]; try reflexivity; destruct q; reflexivity.
Qed.

Lemma type_keyword_cases (s : string) :
  type_keyword s =
  if token_str_eq "int" s then Some INT
  else if token_str_eq "bool" s then Some BOOL
  else if token_str_eq "void" s then Some VOID
  else None.
Proof.
  unfold type_keyword, token_str_eq.
  now rewrite (String.eqb_sym s "int"), (String.eqb_sym s "bool"),
    (String.eqb_sym s "void").
Qed.

Lemma parse_type_cons (t : Token) (q : TokenQueue) :
  parse_type (t :: q) =
  if TokenType_eqb (type t) KEY
  then match type_keyword (text t) with
       | Some ty => Ok ty q
       | None => fail_after_removal q (InvalidType (text t))
       end
  else fail_after_removal q (InvalidType (text t)).
Proof.
  rewrite type_keyword_cases.
  unfold parse_type. run_rule.
  destruct (TokenType_eqb (type t) KEY); cbn [negb];
    [|destruct q; reflexivity].
  destruct (token_str_eq "int" (text t)); [reflexivity|].
  destruct (token_str_eq "bool" (text t)); [reflexivity|].
  destruct (token_str_eq "void" (text t)); [reflexivity|].
  destruct q; reflexivity.
Qed.

Lemma parse_id_cons (MAX_ID_LEN : nat) (t : Token) (q : TokenQueue) :
  parse_id MAX_ID_LEN (t :: q) =
  if TokenType_eqb (type t) ID
  then Ok (snprintf MAX_ID_LEN (text t)) q
  else fail_after_removal q (InvalidIdentifier (text t)).
Proof.
  unfold parse_id. run_rule.
  destruct (TokenType_eqb (type t) ID); cbn [negb]; [reflexivity|].
  destruct q; reflexivity.
Qed.

Lemma TokenType_eqb_eq (a b : TokenType) :
  TokenType_eqb a b = true <-> a = b.
Proof. destruct a, b; simpl; split; congruence. Qed.

Lemma fail_after_removal_not_Ok {A : Type} (q : TokenQueue)
  (e : Z -> ParseError) (a : A) (r : TokenQueue) :
  fail_after_removal q e <> Ok a r.
Proof. destruct q; discriminate. Qed.

Lemma fail_after_removal_defined {A : Type} (q : TokenQueue)
  (e : Z -> ParseError) (u : UndefinedBehaviour) :
  @fail_after_removal A q e <> Undefined u.
Proof. destruct q; discriminate. Qed.

Lemma parse_type_Ok (q : TokenQueue) (ty : DecafType) (r : TokenQueue) :
  parse_type q = Ok ty r ->
  exists t, q = t :: r /\ type t = KEY /\ type_keyword (text t) = Some ty.
Proof.
  destruct q as [|t q]; [discriminate|].
  rewrite parse_type_cons.
  destruct (TokenType_eqb (type t) KEY) eqn:Hty;
    [destruct (type_keyword (text t)) as [ty'|] eqn:Hkw|];
    try (intros H; now apply fail_after_removal_not_Ok in H).
  intros [= <- <-]. exists t. repeat split; trivial.
  now apply TokenType_eqb_eq.
Qed.

Lemma parse_id_Ok (MAX_ID_LEN : nat) (q : TokenQueue) (name : string)
  (r : TokenQueue) :
  parse_id MAX_ID_LEN q = Ok name r ->
  exists t, q = t :: r /\ type t = ID /\ name = snprintf MAX_ID_LEN (text t).
Proof.
  destruct q as [|t q]; [discriminate|].
  rewrite parse_id_cons.
  destruct (TokenType_eqb (type t) ID) eqn:Hty;
    try (intros H; now apply fail_after_removal_not_Ok in H).
  intros [= <- <-]. exists t. repeat split.
  now apply TokenType_eqb_eq.
Qed.

Lemma match_and_discard_next_token_Ok_eq (ty : TokenType) (txt : string)
  (q : TokenQueue) (u : unit) (r : TokenQueue) :
  match_and_discard_next_token ty txt q = Ok u r ->
  exists t, q = t :: r /\ type t = ty /\ text t = txt.
Proof.
  intros H. apply match_and_discard_next_token_Ok in H as (t & -> & Hty & Htxt).
  exists t. repeat split.
  - now apply TokenType_eqb_eq.
  - now apply String.eqb_eq.
Qed.

(** X1: [match_and_discard_next_token] succeeds exactly when the front
    token has the expected type and text, and then removes that one token;
    on the empty queue it throws the end-of-input failure that names the
    expected text. *)
Theorem match_and_discard_succeeds_iff (ty : TokenType) (txt : string)
  (q : TokenQueue) (r : TokenQueue) :
  (match_and_discard_next_token ty txt q = Ok tt r <->
   exists t, q = t :: r /\ type t = ty /\ text t = txt) /\
  match_and_discard_next_token ty txt [] =
    Throw (UnexpectedEndOfInput (Some txt)).
Proof.
  split; [|reflexivity]. split.
  - apply match_and_discard_next_token_Ok_eq.
  - intros (t & -> & Hty & Htxt).
    rewrite match_and_discard_next_token_cons.
    apply TokenType_eqb_eq in Hty. apply String.eqb_eq in Htxt.
    unfold token_str_eq. now rewrite Hty, Htxt.
Qed.

Lemma match_and_discard_succeeds_iff_witness :
  match_and_discard_next_token SYM ";" [tok SYM ";" 1; tok ID "x" 2] =
  Ok tt [tok ID "x" 2].
Proof.
  apply (proj2 (proj1 (match_and_discard_succeeds_iff SYM ";" _ _))).
  exists (tok SYM ";" 1). repeat split.
Defined.

(** X2: [parse_type] succeeds exactly on a front keyword [int], [bool] or
    [void], returns its type and removes that one token. *)
Theorem parse_type_succeeds_iff (q : TokenQueue) (ty : DecafType)
  (r : TokenQueue) :
  parse_type q = Ok ty r <->
  exists t, q = t :: r /\ type t = KEY /\ type_keyword (text t) = Some ty.
Proof.
  split; [apply parse_type_Ok|].
  intros (t & -> & Hty & Hkw).
  rewrite parse_type_cons. apply TokenType_eqb_eq in Hty.
  now rewrite Hty, Hkw.
Qed.

Lemma parse_type_succeeds_iff_witness :
  parse_type [tok KEY "bool" 1; tok ID "b" 1] = Ok BOOL [tok ID "b" 1].
Proof.
  apply (proj2 (parse_type_succeeds_iff _ _ _)).
  exists (tok KEY "bool" 1). repeat split.
Defined.



(** X4: on a front token of the wrong kind, [parse_type] and [parse_id]
    throw InvalidType and InvalidIdentifier with the text of that token and
    the line of the token behind it; when no token is behind it they throw
    the plain end-of-input failure; on the empty queue they throw the
    end-of-input failure that names what was expected. *)
Theorem parse_type_and_id_failures (MAX_ID_LEN : nat) (t t' : Token)
  (rest : TokenQueue) :
  (type t <> KEY \/ type_keyword (text t) = None ->
   parse_type (t :: t' :: rest) = Throw (InvalidType (text t) (line t')) /\
   parse_type [t] = Throw (UnexpectedEndOfInput None)) /\
  (type t <> ID ->
   parse_id MAX_ID_LEN (t :: t' :: rest) =
     Throw (InvalidIdentifier (text t) (line t')) /\
   parse_id MAX_ID_LEN [t] = Throw (UnexpectedEndOfInput None)) /\
  parse_type [] = Throw (UnexpectedEndOfInput (Some "type")) /\
  parse_id MAX_ID_LEN [] = Throw (UnexpectedEndOfInput (Some "identifier")).
Proof.
  repeat split; try reflexivity.
  - rewrite parse_type_cons.
    destruct H as [H|H]; [|rewrite H; now destruct (TokenType_eqb _ _)].
    destruct (TokenType_eqb (type t) KEY) eqn:E; [|reflexivity].
    now apply TokenType_eqb_eq in E.
  - rewrite parse_type_cons.
    destruct H as [H|H]; [|rewrite H; now destruct (TokenType_eqb _ _)].
    destruct (TokenType_eqb (type t) KEY) eqn:E; [|reflexivity].
    now apply TokenType_eqb_eq in E.
  - rewrite parse_id_cons.
    destruct (TokenType_eqb (type t) ID) eqn:E; [|reflexivity].
    now apply TokenType_eqb_eq in E.
  - rewrite parse_id_cons.
    destruct (TokenType_eqb (type t) ID) eqn:E; [|reflexivity].
    now apply TokenType_eqb_eq in E.
Qed.

Lemma parse_type_and_id_failures_witness :
  parse_type [tok ID "x" 1; tok SYM ";" 2] = Throw (InvalidType "x" 2) /\
  parse_id 256 [tok KEY "int" 1; tok SYM ";" 2] =
    Throw (InvalidIdentifier "int" 2).
Proof.
  split.
  - apply (proj1 (parse_type_and_id_failures 256 (tok ID "x" 1)
                    (tok SYM ";" 2) [])).
    left. discriminate.
  - apply (proj1 (proj2 (parse_type_and_id_failures 256 (tok KEY "int" 1)
                           (tok SYM ";" 2) []))).
    discriminate.
Defined.

(** ** Declarations and assignments *)

(** Reads the outcome of a queue primitive off the hypothesis [E]. *)
Ltac prim E :=
  cbv [TokenQueue_peek TokenQueue_remove TokenQueue_is_empty fuel_of_queue
       Token_free ret deref hd_error tl] in E.

Lemma parse_vardecl_Ok (MAX_ID_LEN : nat) (q : TokenQueue) (node : ASTNode)
  (r : TokenQueue) :
  parse_vardecl MAX_ID_LEN q = Ok node r ->
  exists t1 t2 t3 ty,
    q = t1 :: t2 :: t3 :: r /\
    type t1 = KEY /\ type_keyword (text t1) = Some ty /\
    type t2 = ID /\ type t3 = SYM /\ text t3 = ";" /\
    node = VarDeclNode (snprintf MAX_ID_LEN (text t2)) ty false 1 (line t1).
Proof.
  unfold parse_vardecl. intros H.
  apply bind_Ok in H as (p & q0 & E & H). prim E. injection E as <- <-.
  apply bind_Ok in H as (t & q0 & E & H).
  destruct q as [|t1 q]; [discriminate E|]. prim E. injection E as <- <-.
  cbv zeta in H.
  apply bind_Ok in H as (ty & q1 & Hty & H).
  apply parse_type_Ok in Hty as (t1' & [= <- <-] & Hk & Hkw).
  apply bind_Ok in H as (name & q2 & Hid & H).
  apply parse_id_Ok in Hid as (t2 & -> & Hi & ->).
  apply bind_Ok in H as (u & q3 & Hm & H).
  apply match_and_discard_next_token_Ok_eq in Hm as (t3 & -> & Hs & Htxt).
  injection H as <- <-.
  exists t1, t2, t3, ty. repeat split; assumption.
Qed.

(** X5: [parse_vardecl] succeeds exactly on a queue that starts with a type
    keyword, an identifier and the symbol [;]; it removes these three
    tokens and returns the declaration of the (cut) name with the type of
    the keyword, not an array, of length 1, on the line of the keyword. *)
Theorem parse_vardecl_succeeds_iff (MAX_ID_LEN : nat) (q : TokenQueue)
  (node : ASTNode) (r : TokenQueue) :
  parse_vardecl MAX_ID_LEN q = Ok node r <->
  exists t1 t2 t3 ty,
    q = t1 :: t2 :: t3 :: r /\
    type t1 = KEY /\ type_keyword (text t1) = Some ty /\
    type t2 = ID /\ type t3 = SYM /\ text t3 = ";" /\
    node = VarDeclNode (snprintf MAX_ID_LEN (text t2)) ty false 1 (line t1).
Proof.
  split; [apply parse_vardecl_Ok|].
  intros (t1 & t2 & t3 & ty & -> & Hk & Hkw & Hi & Hs & Htxt & ->).
  apply TokenType_eqb_eq in Hk, Hi, Hs. apply String.eqb_eq in Htxt.
  unfold parse_vardecl. run_rule.
  rewrite parse_type_cons, Hk, Hkw. cbv beta iota.
  rewrite parse_id_cons, Hi. cbv beta iota.
  rewrite match_and_discard_next_token_cons. unfold token_str_eq.
  now rewrite Hs, Htxt.
Qed.

Lemma parse_vardecl_succeeds_iff_witness :
  parse_vardecl 256 [tok KEY "bool" 3; tok ID "done" 3; tok SYM ";" 4] =
  Ok (VarDeclNode "done" BOOL false 1 3) [].
Proof.
  apply (proj2 (parse_vardecl_succeeds_iff 256 _ _ _)).
  exists (tok KEY "bool" 3), (tok ID "done" 3), (tok SYM ";" 4), BOOL.
  repeat split.
Defined.

Lemma discard_next_token_Ok (q : TokenQueue) (u : unit) (r : TokenQueue) :
  discard_next_token q = Ok u r -> exists t, q = t :: r.
Proof.
  destruct q as [|t q]; [discriminate|].
  intros [= _ <-]. now exists t.
Qed.

Lemma check_next_token_type_eq (ty : TokenType) (q : TokenQueue) :
  check_next_token_type ty q =
  Ok (match q with
      | [] => false
      | t :: _ => TokenType_eqb (type t) ty
      end) q.
Proof. destruct q; reflexivity. Qed.

(** Runs the tests of a rule on a front token of a known kind. *)
Ltac run_value :=
  cbv [bind check_next_token_type check_next_token TokenQueue_is_empty
       TokenQueue_peek TokenQueue_remove deref ret hd_error tl Error_throw
       undefined type text line TokenType_eqb andb orb negb token_str_eq
       strcmp0 bool_of_strcmp_false].

Lemma parse_assignment_Ok (MAX_ID_LEN : nat) (q : TokenQueue)
  (node : ASTNode) (r : TokenQueue) :
  parse_assignment MAX_ID_LEN q = Ok node r ->
  exists t1 t2 t3 t4 v,
    q = t1 :: t2 :: t3 :: t4 :: r /\
    type t1 = ID /\ type t2 = SYM /\ text t2 = "=" /\
    assignment_value t3 (line t1) = Some v /\
    type t4 = SYM /\ text t4 = ";" /\
    node = AssignmentNode
             (Some (LocationNode (snprintf MAX_ID_LEN (text t1)) None
                      (line t1)))
             (Some v) (line t1).
Proof.
  unfold parse_assignment. intros H.
  apply bind_Ok in H as (p & q0 & E & H). prim E. injection E as <- <-.
  apply bind_Ok in H as (t & q0 & E & H).
  destruct q as [|t1 q]; [discriminate E|]. prim E. injection E as <- <-.
  cbv zeta in H.
  apply bind_Ok in H as (name & q1 & Hid & H).
  apply parse_id_Ok in Hid as (t1' & [= <- <-] & Hi & ->).
  apply bind_Ok in H as (u & q2 & Hm & H).
  apply match_and_discard_next_token_Ok_eq in Hm as (t2 & -> & Hs & Heq).
  apply bind_Ok in H as (token_value & q3 & E & H). prim E.
  injection E as <- <-.
  apply bind_Ok in H as (value & q3 & Hv & H).
  apply bind_Ok in H as (u' & q4 & Hd & H).
  apply bind_Ok in H as (u'' & q5 & Hm & H).
  injection H as <- ->.
  apply match_and_discard_next_token_Ok_eq in Hm as (t4 & -> & Hs4 & Htxt4).
  apply discard_next_token_Ok in Hd as (t3 & ->).
  assert (Hval : q2 = t3 :: t4 :: r /\
                 assignment_value t3 (line t1) = Some value).
  { revert Hv.
    destruct q2 as [|[ty3 txt3 ln3] q2]; [discriminate|].
    unfold assignment_value.
    destruct ty3; run_value;
      try (intros [= <- <- ->]; split; reflexivity);
      try discriminate.
    destruct (String.eqb txt3 "true") eqn:Htrue; run_value.
    - intros [= <- <- ->]. rewrite Htrue. split; reflexivity.
    - destruct (String.eqb txt3 "false") eqn:Hfalse; run_value;
        [|discriminate].
      intros [= <- <- ->]. rewrite Htrue, Hfalse. split; reflexivity. }
  destruct Hval as [-> Hval].
  exists t1, t2, t3, t4, value. repeat split; assumption.
Qed.

(** Runs a statement rule on tokens of known kinds. *)
Ltac run_statement :=
  cbv [parse_assignment breakout_helper parse_id
       match_and_discard_next_token discard_next_token get_next_token_line
       Token_free strip_quotes];
  run_value.

(** X6: [parse_assignment] succeeds exactly on a queue that starts with an
    identifier, the symbol [=], a value token and the symbol [;]: it removes
    these four tokens.  The value is a decimal or hex literal (read in base
    10 and 16), a string literal (its text as it is), the keyword [true] or
    [false], or an identifier; every node of the result carries the line of
    the first token. *)
Theorem parse_assignment_succeeds_iff (MAX_ID_LEN : nat) (q : TokenQueue)
  (node : ASTNode) (r : TokenQueue) :
  parse_assignment MAX_ID_LEN q = Ok node r <->
  exists t1 t2 t3 t4 v,
    q = t1 :: t2 :: t3 :: t4 :: r /\
    type t1 = ID /\ type t2 = SYM /\ text t2 = "=" /\
    assignment_value t3 (line t1) = Some v /\
    type t4 = SYM /\ text t4 = ";" /\
    node = AssignmentNode
             (Some (LocationNode (snprintf MAX_ID_LEN (text t1)) None
                      (line t1)))
             (Some v) (line t1).
Proof.
  split; [apply parse_assignment_Ok|].
  intros ([ty1 txt1 l1] & [ty2 txt2 l2] & [ty3 txt3 l3] & [ty4 txt4 l4] & v
          & -> & H1 & H2 & H2' & Hv & H4 & H4' & ->).
  cbn [type text line] in *. subst ty1 ty2 txt2 ty4 txt4.
  unfold assignment_value in Hv. cbn [type text] in Hv.
  destruct ty3; try discriminate Hv;
    try (injection Hv as <-;
         repeat (progress (run_statement; rewrite ?String.eqb_refl));
         reflexivity).
  destruct (String.eqb txt3 "true") eqn:Htrue; cbn [orb] in Hv.
  - injection Hv as <-.
    repeat (progress (run_statement; rewrite ?String.eqb_refl, ?Htrue)).
    reflexivity.
  - destruct (String.eqb txt3 "false") eqn:Hfalse; [|discriminate Hv].
    injection Hv as <-.
    repeat (progress (run_statement;
                      rewrite ?String.eqb_refl, ?Htrue, ?Hfalse)).
    reflexivity.
Qed.

Lemma parse_assignment_succeeds_iff_witness :
  parse_assignment 256
    [tok ID "ok" 7; tok SYM "=" 7; tok KEY "false" 8; tok SYM ";" 8;
     tok KEY "break" 9] =
  Ok (AssignmentNode (Some (LocationNode "ok" None 7))
                     (Some (LiteralNode_bool false 7)) 7)
     [tok KEY "break" 9].
Proof.
  apply (proj2 (parse_assignment_succeeds_iff 256 _ _ _)).
  exists (tok ID "ok" 7), (tok SYM "=" 7), (tok KEY "false" 8),
    (tok SYM ";" 8), (LiteralNode_bool false 7).
  repeat split.
Defined.

(** ** The terminal statement *)

(** Splits the hypothesis [H], a rule body that succeeded, into the steps
    of the body. *)
Ltac peel H :=
  repeat first
    [ let a := fresh "a" in
      let q := fresh "q" in
      let E := fresh "E" in
      apply bind_Ok in H as (a & q & E & H); cbv beta zeta in H
    | match type of H with
      | (if ?b then _ else _) _ = _ => destruct b eqn:?
      end
    | discriminate H ].

(** What a step that succeeded did to the length of the queue. *)
Ltac length_of E :=
  first
    [ apply consumes_discard_next_token in E
    | apply consumes_match_and_discard_next_token in E
    | apply consumes_parse_id in E
    | apply consumes_parse_type in E
    | apply keeps_check_next_token_type in E
    | apply keeps_check_next_token in E
    | apply keeps_TokenQueue_remove in E
    | apply keeps_TokenQueue_peek in E
    | apply keeps_deref in E
    | apply keeps_strip_quotes in E ].

Ltac lengths :=
  repeat match goal with
         | E : _ = Ok _ _ |- _ => length_of E
         end.

(** X7: when [breakout_helper] succeeds it either returns a null pointer
    and leaves the queue untouched, or returns a Break, Continue or Return
    node on the line of the front token and removes at least two tokens. *)
Theorem breakout_helper_result (MAX_ID_LEN : nat) (q : TokenQueue)
  (p : NodePtr) (r : TokenQueue) :
  breakout_helper MAX_ID_LEN q = Ok p r ->
  (p = None /\ r = q) \/
  (exists t, hd_error q = Some t /\ is_terminal_on (line t) p = true /\
             (length r + 2 <= length q)%nat).
Proof.
  unfold breakout_helper. intros H.
  apply bind_Ok in H as (p0 & q0 & E & H). prim E. injection E as <- <-.
  apply bind_Ok in H as (t & q0 & E & H).
  destruct q as [|t0 q]; [discriminate E|]. prim E. injection E as <- <-.
  cbv zeta in H.
  apply bind_Ok in H as (kw & q0 & E & H). prim E. injection E as <- <-.
  apply bind_Ok in H as (k & q0 & E & H). prim E. injection E as <- <-.
  peel H; unfold ret in H; injection H as <- <-;
    try (left; split; reflexivity);
    right; exists t0; (split; [reflexivity|]);
    (split; [cbn [is_terminal_on]; apply Z.eqb_refl|]);
    lengths; cbn [length] in *; lia.
Qed.

Lemma breakout_helper_result_witness :
  (exists t, hd_error [tok KEY "break" 5; tok SYM ";" 5; tok SYM "}" 6] =
             Some t /\
             is_terminal_on (line t) (Some (BreakNode 5)) = true /\
             (length [tok SYM "}" 6] + 2 <=
              length [tok KEY "break" 5; tok SYM ";" 5; tok SYM "}" 6])%nat).
Proof.
  destruct (breakout_helper_result 256
              [tok KEY "break" 5; tok SYM ";" 5; tok SYM "}" 6]
              (Some (BreakNode 5)) [tok SYM "}" 6]) as [[H _]|H];
    [reflexivity | discriminate H | exact H].
Defined.

(** X8: after [return], a keyword (so also [true] and [false]) or the end
    of the input is refused as an invalid return, and a symbol other than
    [;] as an unexpected token. *)
Theorem breakout_helper_return_refused (MAX_ID_LEN : nat) (t0 t : Token)
  (rest : TokenQueue) :
  text t0 = "return" ->
  (type t = KEY ->
   breakout_helper MAX_ID_LEN (t0 :: t :: rest) =
     Throw InvalidReturnExpression) /\
  breakout_helper MAX_ID_LEN [t0] = Throw InvalidReturnExpression /\
  (type t = SYM -> text t <> ";" ->
   breakout_helper MAX_ID_LEN (t0 :: t :: rest) =
     fail_after_removal rest (UnexpectedToken ";" (text t))).
Proof.
  destruct t0 as [ty0 txt0 l0], t as [ty txt l]. cbn [type text].
  intros ->. repeat split.
  - intros ->. reflexivity.
  - intros -> Hneq. apply String.eqb_neq in Hneq.
    change (breakout_helper MAX_ID_LEN
              (mkToken ty0 "return" l0 :: mkToken SYM txt l :: rest))
      with (bind (match_and_discard_next_token SYM ";")
              (fun _ => ret (Some (ReturnNode None l0)))
              (mkToken SYM txt l :: rest)).
    unfold bind. rewrite match_and_discard_next_token_cons.
    cbn [type text TokenType_eqb andb]. unfold token_str_eq.
    rewrite Hneq. destruct rest; reflexivity.
Qed.

Lemma breakout_helper_return_refused_witness :
  breakout_helper 256 [tok KEY "return" 2; tok KEY "true" 2; tok SYM ";" 2] =
  Throw InvalidReturnExpression.
Proof.
  apply (proj1 (breakout_helper_return_refused 256 (tok KEY "return" 2)
                  (tok KEY "true" 2) [tok SYM ";" 2] eq_refl)).
  reflexivity.
Defined.

Lemma substring_0_app (s s' : string) :
  substring 0 (String.length s) (s ++ s')%string = s.
Proof.
  induction s as [|c s IH]; simpl; [now destruct s'|]. now rewrite IH.
Qed.

Lemma length_append (s s' : string) :
  String.length (s ++ s')%string = (String.length s + String.length s')%nat.
Proof. induction s as [|c s IH]; simpl; [reflexivity|]. now rewrite IH. Qed.

Lemma strip_quotes_quoted (s : string) (q : TokenQueue) :
  strip_quotes (quoted s) q = Ok s q.
Proof.
  unfold strip_quotes, quoted.
  cbn [String.length]. rewrite length_append. cbn [String.length].
  replace (S (String.length s + 1) - 2)%nat with (String.length s) by lia.
  destruct (Nat.ltb_spec (S (String.length s + 1)) 2) as [Hlt|_]; [lia|].
  cbn [substring]. now rewrite substring_0_app.
Qed.

(** X9: [return] with a string literal gives back the text that the
    scanner put between the quotes: for every text [s], the tokens [return],
    the literal of [s] in quotes and [;] are parsed to the Return node over
    the string literal [s]. *)
Theorem breakout_helper_return_string (MAX_ID_LEN : nat) (l0 : Z)
  (s : string) (l l' : Z) (rest : TokenQueue) :
  breakout_helper MAX_ID_LEN
    (tok KEY "return" l0 :: tok STRLIT (quoted s) l :: tok SYM ";" l'
       :: rest) =
  Ok (Some (ReturnNode (Some (LiteralNode_string s l0)) l0)) rest.
Proof.
  cbv -[strip_quotes quoted]. now rewrite strip_quotes_quoted.
Qed.

(** ** Operands and operators *)

(** X10: [type_helper] removes the front token and returns its operand
    node, an identifier, a decimal or hex literal, or the keyword [true] or
    [false], on the line of that token; on any other front token it ends
    without a value, and on the empty queue it reads a null token. *)
Theorem type_helper_operand (MAX_ID_LEN : nat) (t : Token)
  (q : TokenQueue) :
  type_helper MAX_ID_LEN (t :: q) =
    match operand_node MAX_ID_LEN t with
    | Some v => Ok v q
    | None => Undefined NoReturnValue
    end /\
  type_helper MAX_ID_LEN [] = Undefined NullDereference.
Proof.
  split; [|reflexivity].
  destruct t as [ty txt l]. unfold operand_node. cbn [type text line].
  destruct ty; try reflexivity.
  unfold type_helper. run_value.
  destruct (String.eqb txt "true") eqn:Htrue; run_value; [reflexivity|].
  destruct (String.eqb txt "false") eqn:Hfalse; run_value; reflexivity.
Qed.

(** X11: whatever [MAX_TOKEN_LEN] is, [op_type_helper] never returns the
    tag LTOP, and when it succeeds it has removed nothing from the queue. *)
Theorem op_type_helper_never_less (MAX_TOKEN_LEN : nat) (q : TokenQueue)
  (op : BinaryOpType) (r : TokenQueue) :
  op_type_helper MAX_TOKEN_LEN q = Ok op r -> op <> LTOP /\ r = q.
Proof.
  unfold op_type_helper. intros H.
  apply bind_Ok in H as (p & q0 & E & H). prim E. injection E as <- <-.
  apply bind_Ok in H as (t & q0 & E & H).
  destruct q as [|t0 q]; [discriminate E|]. prim E. injection E as <- <-.
  cbv zeta in H.
  repeat match type of H with
         | (if ?b then _ else _) _ = _ => destruct b
         end;
    try discriminate H; injection H as <- <-; split;
    (discriminate || reflexivity).
Qed.

Lemma op_type_helper_never_less_witness :
  LEOP <> LTOP /\ [tok SYM "<" 1; tok ID "y" 1] = [tok SYM "<" 1; tok ID "y" 1].
Proof.
  apply (op_type_helper_never_less 256 [tok SYM "<" 1; tok ID "y" 1]).
  reflexivity.
Defined.

(** ** Blocks *)

Lemma breakout_helper_node (MAX_ID_LEN : nat) (q : TokenQueue)
  (p : NodePtr) (r : TokenQueue) :
  breakout_helper MAX_ID_LEN q = Ok p r ->
  p = None \/ exists l, is_terminal_on l p = true.
Proof.
  unfold breakout_helper. intros H.
  apply bind_Ok in H as (p0 & q0 & _ & H).
  apply bind_Ok in H as (t & q1 & _ & H). cbv zeta in H.
  apply bind_Ok in H as (kw & q2 & _ & H).
  apply bind_Ok in H as (k & q3 & _ & H).
  peel H; unfold ret in H; injection H as <- <-;
    try (left; reflexivity);
    right; exists (line t); cbn [is_terminal_on]; apply Z.eqb_refl.
Qed.

Lemma parse_block_vars_shape (MAX_ID_LEN fuel : nat) (vars : NodeList)
  (q : TokenQueue) (vs : NodeList) (r : TokenQueue) :
  parse_block_vars MAX_ID_LEN fuel vars q = Ok vs r ->
  exists new, vs = vars ++ new /\ forallb is_VarDecl new = true.
Proof.
  revert vars q; induction fuel as [|fuel IH]; intros vars q H;
    [discriminate H|].
  cbn [parse_block_vars] in H.
  apply bind_Ok in H as (next & q0 & _ & H).
  apply bind_Ok in H as (n & q1 & _ & H).
  destruct (_ || _).
  - apply bind_Ok in H as (v & q2 & Hv & H).
    apply parse_vardecl_Ok in Hv
      as (t1 & t2 & t3 & ty & _ & _ & _ & _ & _ & _ & ->).
    apply IH in H as (new & -> & Hnew). unfold NodeList_add.
    exists (Some (VarDeclNode (snprintf MAX_ID_LEN (text t2)) ty false 1
                    (line t1)) :: new).
    split; [now rewrite <- app_assoc | exact Hnew].
  - injection H as <- _. exists []. split; [now rewrite app_nil_r | reflexivity].
Qed.

Lemma parse_block_stmts_shape (MAX_ID_LEN fuel : nat) (stmts : NodeList)
  (q : TokenQueue) (ss : NodeList) (r : TokenQueue) :
  parse_block_stmts MAX_ID_LEN fuel stmts q = Ok ss r ->
  exists new, ss = stmts ++ new /\ forallb is_Assignment new = true.
Proof.
  revert stmts q; induction fuel as [|fuel IH]; intros stmts q H;
    [discriminate H|].
  cbn [parse_block_stmts] in H.
  apply bind_Ok in H as (next & q0 & _ & H).
  apply bind_Ok in H as (n & q1 & _ & H).
  destruct (TokenType_eqb _ _).
  - apply bind_Ok in H as (a & q2 & Ha & H).
    apply parse_assignment_Ok in Ha
      as (t1 & t2 & t3 & t4 & v & _ & _ & _ & _ & _ & _ & _ & ->).
    apply IH in H as (new & -> & Hnew). unfold NodeList_add.
    eexists (Some _ :: new).
    split; [now rewrite <- app_assoc | exact Hnew].
  - injection H as <- _. exists []. split; [now rewrite app_nil_r | reflexivity].
Qed.

(** X12: a block that [parse_block] returns starts at a [{], whose line it
    carries; its declaration list holds declaration nodes only; its
    statement list is a run of assignment nodes followed by one last entry,
    which is a Break, Continue or Return node or a null pointer; and at
    least the two braces were removed from the queue. *)
Theorem parse_block_shape (MAX_ID_LEN : nat) (q : TokenQueue)
  (node : ASTNode) (r : TokenQueue) :
  parse_block MAX_ID_LEN q = Ok node r ->
  exists t vars stmts last,
    hd_error q = Some t /\ type t = SYM /\ text t = "{" /\
    node = BlockNode vars (stmts ++ [last]) (line t) /\
    forallb is_VarDecl vars = true /\
    forallb is_Assignment stmts = true /\
    (last = None \/ exists l, is_terminal_on l last = true) /\
    (length r + 2 <= length q)%nat.
Proof.
  unfold parse_block. intros H.
  apply bind_Ok in H as (p & q0 & E & H). prim E. injection E as <- <-.
  apply bind_Ok in H as (t & q0 & E & H).
  destruct q as [|t0 q]; [discriminate E|]. prim E. injection E as <- <-.
  cbv zeta in H.
  apply bind_Ok in H as (u & q1 & Hopen & H).
  apply match_and_discard_next_token_Ok_eq in Hopen
    as (t' & [= <- <-] & Hty & Htxt).
  apply bind_Ok in H as (fuel & q2 & E & H). prim E. injection E as <- <-.
  apply bind_Ok in H as (vars & q2 & Hvars & H).
  apply bind_Ok in H as (stmts & q3 & Hstmts & H).
  apply bind_Ok in H as (breakOut & q4 & Hbreak & H).
  apply bind_Ok in H as (u' & q5 & Hclose & H).
  injection H as <- <-.
  pose proof (parse_block_vars_shape _ _ _ _ _ _ Hvars) as (vs & -> & Hvs).
  pose proof (parse_block_stmts_shape _ _ _ _ _ _ Hstmts) as (ss & -> & Hss).
  apply keeps_parse_block_vars in Hvars.
  apply keeps_parse_block_stmts in Hstmts.
  pose proof (breakout_helper_node _ _ _ _ Hbreak) as Hlast.
  apply keeps_breakout_helper in Hbreak.
  apply consumes_match_and_discard_next_token in Hclose.
  exists t0, vs, ss, breakOut. cbn [length app hd_error NodeList_new].
  unfold NodeList_add. cbn [app].
  repeat split; trivial. lia.
Qed.

Lemma parse_block_shape_witness :
  exists t vars stmts last,
    hd_error [tok SYM "{" 1; tok KEY "break" 1; tok SYM ";" 1; tok SYM "}" 2]
      = Some t /\ type t = SYM /\ text t = "{" /\
    BlockNode [] [Some (BreakNode 1)] 1 =
      BlockNode vars (stmts ++ [last]) (line t) /\
    forallb is_VarDecl vars = true /\
    forallb is_Assignment stmts = true /\
    (last = None \/ exists l, is_terminal_on l last = true) /\
    (length (@nil Token) + 2 <=
     length [tok SYM "{" 1; tok KEY "break" 1; tok SYM ";" 1; tok SYM "}" 2])%nat.
Proof.
  apply (parse_block_shape 256). reflexivity.
Defined.

(** ** Expressions *)

Lemma type_helper_Ok (MAX_ID_LEN : nat) (q : TokenQueue) (node : ASTNode)
  (r : TokenQueue) :
  type_helper MAX_ID_LEN q = Ok node r ->
  exists t, q = t :: r /\ type t <> SYM.
Proof.
  destruct q as [|[ty txt l] q]; [discriminate|].
  destruct ty; try discriminate; unfold type_helper; run_value;
    try (unfold parse_id; run_value);
    try (intros [= _ <-]; eexists; split; [reflexivity | discriminate]).
  destruct (String.eqb txt "true"); run_value;
    [|destruct (String.eqb txt "false"); run_value; [|discriminate]];
    intros [= _ <-]; eexists; (split; [reflexivity | discriminate]).
Qed.

(** X13: with the kinds the scanner gives (an operator symbol is a symbol
    token) and [MAX_TOKEN_LEN] above 3, the only expressions that
    [parse_expression] parses are the keywords [true] and [false]: it
    succeeds exactly on such a front token, removes it and returns its
    boolean literal on its line. *)
Theorem parse_expression_succeeds_iff (MAX_ID_LEN MAX_TOKEN_LEN : nat)
  (q : TokenQueue) (node : ASTNode) (r : TokenQueue) :
  (3 < MAX_TOKEN_LEN)%nat ->
  operators_are_symbols q ->
  (parse_expression MAX_ID_LEN MAX_TOKEN_LEN q = Ok node r <->
   exists t, q = t :: r /\ type t = KEY /\
             (text t = "true" \/ text t = "false") /\
             node = LiteralNode_bool (negb (String.eqb (text t) "false"))
                      (line t)).
Proof.
  intros Hlen Hkinds. split.
  - unfold parse_expression. intros H.
    apply bind_Ok in H as (p & q0 & E & H). prim E. injection E as <- <-.
    apply bind_Ok in H as (t & q0 & E & H).
    destruct q as [|t0 q]; [discriminate E|]. prim E. injection E as <- <-.
    cbv zeta in H.
    apply bind_Ok in H as ([|] & q1 & E & H).
    { apply bind_Ok in H as (x & q4 & _ & H).
      apply bind_Ok in H as (peek & q5 & _ & H).
      apply bind_Ok in H as ([| |] & q6 & _ & H); discriminate H. }
    rewrite check_next_token_eq in E. injection E as Hnot <-.
    apply bind_Ok in H as (is_true & q2 & E & H).
    rewrite check_next_token_eq in E. injection E as <- <-.
    apply bind_Ok in H as (is_bool & q3 & E & H).
    assert (Hbool : is_bool =
              TokenType_eqb (type t0) KEY &&
              (String.eqb (text t0) "true" || String.eqb (text t0) "false")
            /\ q3 = t0 :: q).
    { revert E. unfold token_str_eq.
      destruct (TokenType_eqb (type t0) KEY) eqn:Hk; cbn [andb].
      - destruct (String.eqb (text t0) "true"); cbn [orb].
        + now intros [= <- <-].
        + rewrite check_next_token_eq. unfold token_str_eq. rewrite Hk.
          now intros [= <- <-].
      - rewrite check_next_token_eq. rewrite Hk. now intros [= <- <-]. }
    destruct Hbool as [-> ->].
    destruct (TokenType_eqb (type t0) KEY) eqn:Hkey; cbn [andb] in H.
    + destruct (String.eqb (text t0) "true" || String.eqb (text t0) "false")
        eqn:Htf.
      * apply bind_Ok in H as (x & q4 & E1 & H). prim E1.
        injection E1 as <- <-. cbn [deref] in H.
        apply bind_Ok in H as (pk & q5 & E2 & H). prim E2.
        injection E2 as <- <-. injection H as <- <-.
        exists t0. repeat split.
        -- now apply TokenType_eqb_eq.
        -- apply orb_true_iff in Htf as [Ht|Hf];
             [left | right]; now apply String.eqb_eq.
      * exfalso.
        apply bind_Ok in H as (left & q4 & Hl & H).
        apply type_helper_Ok in Hl as (t1 & [= <- <-] & _).
        apply bind_Ok in H as (o & q5 & Ho & H).
        destruct q as [|t2 q]; [discriminate Ho|].
        rewrite op_type_helper_lookup in Ho by exact Hlen.
        destruct (lookup_operator operator_table (text t2)) eqn:Hop;
          [|discriminate Ho].
        injection Ho as <- <-.
        apply bind_Ok in H as (right & q6 & Hr & _).
        apply type_helper_Ok in Hr as (t3 & [= <- <-] & Hsym).
        apply Hsym, Hkinds; [right; left; reflexivity | congruence].
    + exfalso.
      apply bind_Ok in H as (left & q4 & Hl & H).
      apply type_helper_Ok in Hl as (t1 & [= <- <-] & _).
      apply bind_Ok in H as (o & q5 & Ho & H).
      destruct q as [|t2 q]; [discriminate Ho|].
      rewrite op_type_helper_lookup in Ho by exact Hlen.
      destruct (lookup_operator operator_table (text t2)) eqn:Hop;
        [|discriminate Ho].
      injection Ho as <- <-.
      apply bind_Ok in H as (right & q6 & Hr & _).
      apply type_helper_Ok in Hr as (t3 & [= <- <-] & Hsym).
      apply Hsym, Hkinds; [right; left; reflexivity | congruence].
  - intros ([ty txt l] & -> & Hty & Htxt & ->). cbn [type text line] in *.
    subst ty. destruct Htxt as [-> | ->]; reflexivity.
Qed.

Lemma parse_expression_succeeds_iff_witness :
  parse_expression 256 256 [tok KEY "false" 4; tok SYM ")" 4] =
  Ok (LiteralNode_bool false 4) [tok SYM ")" 4].
Proof.
  apply (proj2 (parse_expression_succeeds_iff 256 256
                  [tok KEY "false" 4; tok SYM ")" 4] _ _
                  ltac:(lia)
                  ltac:(intros t [<-|[<-|[]]] H;
                        [exfalso; apply H; reflexivity | reflexivity]))).
  exists (tok KEY "false" 4). repeat split. now right.
Defined.

(** ** Parameter lists *)

Lemma param_helper_loop_step (MAX_ID_LEN fuel : nat) (pl : ParameterList)
  (ty : DecafType) (name : string) (l : Z) (q : TokenQueue) :
  ty <> VOID ->
  param_helper_loop MAX_ID_LEN (S fuel) pl
    (tok KEY (keyword_of_type ty) l :: tok ID name l :: q) =
  match q with
  | t :: q' =>
      if TokenType_eqb (type t) SYM && token_str_eq (text t) ","
      then param_helper_loop MAX_ID_LEN fuel
             (pl ++ [(snprintf MAX_ID_LEN name, ty)]) q'
      else Ok (pl ++ [(snprintf MAX_ID_LEN name, ty)]) q
  | [] => Ok (pl ++ [(snprintf MAX_ID_LEN name, ty)]) []
  end.
Proof.
  intros Hty.
  destruct ty; [| |contradiction]; destruct q as [|[ty' txt' l'] q];
    try reflexivity; destruct ty'; try reflexivity;
    (destruct (String.eqb txt' ",") eqn:E;
     [apply String.eqb_eq in E; subst txt'; reflexivity|]);
    cbn [param_helper_loop type text]; unfold token_str_eq;
    cbn [andb TokenType_eqb]; rewrite E;
    cbn -[snprintf]; unfold token_str_eq; cbn -[snprintf]; rewrite E;
    reflexivity.
Qed.

Lemma param_helper_loop_stop (MAX_ID_LEN fuel : nat) (pl : ParameterList)
  (l : Z) (rest : TokenQueue) :
  param_helper_loop MAX_ID_LEN (S fuel) pl (tok SYM ")" l :: rest) =
  Ok pl (tok SYM ")" l :: rest).
Proof. reflexivity. Qed.

Lemma param_helper_loop_list (MAX_ID_LEN : nat) (l l' : Z)
  (rest : TokenQueue) (ps : list (DecafType * string)) :
  Forall (parameter_ok MAX_ID_LEN) ps ->
  forall (fuel : nat) (pl : ParameterList),
    (length ps < fuel)%nat ->
    param_helper_loop MAX_ID_LEN fuel pl
      (param_tokens l ps ++ tok SYM ")" l' :: rest) =
    Ok (pl ++ map parameter_of ps) (tok SYM ")" l' :: rest).
Proof.
  induction 1 as [|[ty name] ps [Hty Hname] Hps IH]; intros fuel pl Hfuel.
  - destruct fuel as [|fuel]; [cbn in Hfuel; lia|].
    cbn [param_tokens app map]. rewrite app_nil_r.
    apply param_helper_loop_stop.
  - destruct fuel as [|fuel]; [cbn in Hfuel; lia|].
    cbn [length] in Hfuel. cbn [param_tokens fst snd app] in *.
    rewrite param_helper_loop_step by exact Hty.
    rewrite snprintf_short by exact Hname.
    destruct ps as [|p ps].
    + reflexivity.
    + cbn [app]. cbn [type text tok TokenType_eqb andb].
      change (token_str_eq "," ",") with true. cbv iota.
      rewrite IH by lia. cbn [map]. now rewrite <- app_assoc.
Qed.

Lemma param_helper_loop_trailing (MAX_ID_LEN : nat) (l l' l'' : Z)
  (rest : TokenQueue) (ps : list (DecafType * string)) :
  Forall (parameter_ok MAX_ID_LEN) ps -> ps <> [] ->
  forall (fuel : nat) (pl : ParameterList),
    (length ps + 1 < fuel)%nat ->
    param_helper_loop MAX_ID_LEN fuel pl
      (param_tokens l ps ++ tok SYM "," l' :: tok SYM ")" l'' :: rest) =
    Ok (pl ++ map parameter_of ps) (tok SYM ")" l'' :: rest).
Proof.
  induction 1 as [|[ty name] ps [Hty Hname] Hps IH]; intros Hne fuel pl Hfuel;
    [contradiction|].
  destruct fuel as [|fuel]; [lia|].
  cbn [length] in Hfuel. cbn [param_tokens fst snd app] in *.
  rewrite param_helper_loop_step by exact Hty.
  rewrite snprintf_short by exact Hname.
  destruct ps as [|p ps].
  - cbn [app]. cbn [type text tok TokenType_eqb andb].
    change (token_str_eq "," ",") with true. cbv iota.
    destruct fuel as [|fuel]; [cbn in Hfuel; lia|].
    apply param_helper_loop_stop.
  - cbn [app]. cbn [type text tok TokenType_eqb andb].
    change (token_str_eq "," ",") with true. cbv iota.
    rewrite IH by (discriminate || lia). cbn [map]. now rewrite <- app_assoc.
Qed.

(** X14: on a parameter list [ty name, ..., ty name] of [int] and [bool]
    parameters followed by [)], [param_helper] returns the parameters in
    their order and stops in front of the [)]; it does the same when a comma
    stands between the last parameter and the [)]. *)
Theorem param_helper_reads_list (MAX_ID_LEN : nat) (l l' l'' : Z)
  (ps : list (DecafType * string)) (rest : TokenQueue) :
  Forall (parameter_ok MAX_ID_LEN) ps ->
  param_helper MAX_ID_LEN (param_tokens l ps ++ tok SYM ")" l'' :: rest) =
    Ok (map parameter_of ps) (tok SYM ")" l'' :: rest) /\
  (ps <> [] ->
   param_helper MAX_ID_LEN
     (param_tokens l ps ++ tok SYM "," l' :: tok SYM ")" l'' :: rest) =
     Ok (map parameter_of ps) (tok SYM ")" l'' :: rest)).
Proof.
  intros Hps.
  assert (Hlen : forall q, (length ps < S (length (param_tokens l ps ++ q)))%nat).
  { intros q. rewrite length_app. clear Hps.
    induction ps as [|p [|p' ps] IH]; cbn [param_tokens length] in *; lia. }
  split.
  - unfold param_helper, bind, fuel_of_queue, ParameterList_new.
    now rewrite param_helper_loop_list.
  - intros Hne. unfold param_helper, bind, fuel_of_queue, ParameterList_new.
    rewrite param_helper_loop_trailing; trivial.
    specialize (Hlen (tok SYM ")" l'' :: rest)).
    rewrite length_app in *. cbn [length] in *. lia.
Qed.

Lemma param_helper_reads_list_witness :
  param_helper 256
    (param_tokens 1 [(INT, "a"); (BOOL, "b")] ++ tok SYM ")" 1 :: []) =
  Ok [("a", INT); ("b", BOOL)] [tok SYM ")" 1].
Proof.
  apply (proj1 (param_helper_reads_list 256 1 1 1
                  [(INT, "a"); (BOOL, "b")] [] ltac:(
                    repeat constructor; cbn; (discriminate || lia)))).
Defined.

(** ** The program loop *)

Lemma parse_function_decl_Ok (MAX_ID_LEN : nat) (q : TokenQueue)
  (node : ASTNode) (r : TokenQueue) :
  parse_function_decl MAX_ID_LEN q = Ok node r ->
  (exists t q', q = t :: q' /\ is_def t = true) /\
  is_FuncDecl (Some node) = true.
Proof.
  unfold parse_function_decl. intros H.
  apply bind_Ok in H as (p & q0 & E & H). prim E. injection E as <- <-.
  apply bind_Ok in H as (t & q0 & E & H).
  destruct q as [|t0 q]; [discriminate E|]. prim E. injection E as <- <-.
  cbv zeta in H.
  apply bind_Ok in H as (u & q1 & Hdef & H).
  apply match_and_discard_next_token_Ok in Hdef
    as (t' & [= <- <-] & Hty & Htxt).
  apply bind_Ok in H as (ty & q2 & _ & H).
  apply bind_Ok in H as (name & q3 & _ & H).
  apply bind_Ok in H as (u1 & q4 & _ & H).
  apply bind_Ok in H as (ps & q5 & _ & H).
  apply bind_Ok in H as (u2 & q6 & _ & H).
  apply bind_Ok in H as (b & q7 & _ & H).
  injection H as <- _. split; [|reflexivity].
  exists t0, q. split; [reflexivity|]. unfold is_def. now rewrite Hty, Htxt.
Qed.

Lemma parse_vardecl_not_def (MAX_ID_LEN : nat) (t : Token) (q : TokenQueue)
  (node : ASTNode) (r : TokenQueue) :
  parse_vardecl MAX_ID_LEN (t :: q) = Ok node r -> is_def t = false.
Proof.
  intros H. apply parse_vardecl_Ok in H
    as (t1 & t2 & t3 & ty & [= <- _] & _ & Hkw & _).
  unfold is_def, token_str_eq. unfold type_keyword in Hkw.
  destruct (String.eqb_spec (text t) "def") as [E|_];
    [|now rewrite andb_false_r].
  rewrite E in Hkw. discriminate Hkw.
Qed.

(** The loop on a queue with a front token. *)
Lemma parse_program_loop_cons (MAX_ID_LEN fuel : nat) (vars funcs : NodeList)
  (t : Token) (q : TokenQueue) :
  parse_program_loop MAX_ID_LEN (S fuel) vars funcs (t :: q) =
  if is_def t
  then bind (parse_function_decl MAX_ID_LEN)
         (fun f => parse_program_loop MAX_ID_LEN fuel vars
                     (NodeList_add funcs (Some f))) (t :: q)
  else bind (parse_vardecl MAX_ID_LEN)
         (fun v => parse_program_loop MAX_ID_LEN fuel
                     (NodeList_add vars (Some v)) funcs) (t :: q).
Proof.
  cbn [parse_program_loop]. unfold bind at 1 2 3.
  cbn [TokenQueue_is_empty TokenQueue_peek hd_error].
  rewrite check_next_token_eq. unfold is_def.
  now destruct (_ && _).
Qed.

Lemma parse_program_loop_acc (MAX_ID_LEN fuel : nat) (vars funcs : NodeList)
  (q : TokenQueue) :
  parse_program_loop MAX_ID_LEN fuel vars funcs q =
  map_outcome (fun r => (vars ++ fst r, funcs ++ snd r))
    (parse_program_loop MAX_ID_LEN fuel [] [] q).
Proof.
  revert vars funcs q; induction fuel as [|fuel IH]; intros vars funcs q;
    [reflexivity|].
  destruct q as [|t q];
    [cbn; unfold ret; now rewrite !app_nil_r|].
  rewrite !parse_program_loop_cons. unfold bind, NodeList_add.
  destruct (is_def t).
  - destruct (parse_function_decl MAX_ID_LEN (t :: q)) as [f r| | |];
      try reflexivity.
    rewrite (IH vars (funcs ++ [Some f])), (IH [] ([] ++ [Some f])).
    destruct (parse_program_loop MAX_ID_LEN fuel [] [] r) as [[vs fs] r'| | |];
      try reflexivity.
    cbn [map_outcome fst snd app]. now rewrite <- app_assoc.
  - destruct (parse_vardecl MAX_ID_LEN (t :: q)) as [v r| | |];
      try reflexivity.
    rewrite (IH (vars ++ [Some v]) funcs), (IH ([] ++ [Some v]) []).
    destruct (parse_program_loop MAX_ID_LEN fuel [] [] r) as [[vs fs] r'| | |];
      try reflexivity.
    cbn [map_outcome fst snd app]. now rewrite <- app_assoc.
Qed.

Lemma parse_program_loop_any_fuel (MAX_ID_LEN : nat) (f1 : nat) :
  forall (f2 : nat) (vars funcs : NodeList) (q : TokenQueue),
    (length q < f1)%nat -> (length q < f2)%nat ->
    parse_program_loop MAX_ID_LEN f1 vars funcs q =
    parse_program_loop MAX_ID_LEN f2 vars funcs q.
Proof.
  induction f1 as [|f1 IH]; intros f2 vars funcs q H1 H2; [lia|].
  destruct f2 as [|f2]; [lia|].
  destruct q as [|t q]; [reflexivity|].
  rewrite !parse_program_loop_cons. unfold bind. cbn [length] in *.
  destruct (is_def t).
  - destruct (parse_function_decl MAX_ID_LEN (t :: q)) as [f r| | |] eqn:E;
      try reflexivity.
    apply consumes_parse_function_decl in E. cbn [length] in E.
    apply IH; lia.
  - destruct (parse_vardecl MAX_ID_LEN (t :: q)) as [v r| | |] eqn:E;
      try reflexivity.
    apply consumes_parse_vardecl in E. cbn [length] in E.
    apply IH; lia.
Qed.

Lemma parse_eq (MAX_ID_LEN : nat) (q : TokenQueue) :
  parse MAX_ID_LEN q =
  map_outcome (fun r => ProgramNode (fst r) (snd r))
    (parse_program_loop MAX_ID_LEN (S (length q)) [] [] q).
Proof.
  unfold parse, parse_program, bind, fuel_of_queue, NodeList_new.
  now destruct (parse_program_loop _ _ _ _ _).
Qed.

(** X15: [parse] reads the top-level constructs one after the other: when
    [parse_vardecl] (or [parse_function_decl]) succeeds on the queue, the
    program is that declaration put in front of the variables (or
    functions) of the program parsed from the rest of the queue, and a
    failure on the rest is the failure of the whole. *)
Theorem parse_first_construct (MAX_ID_LEN : nat) (q : TokenQueue)
  (node : ASTNode) (r : TokenQueue) :
  (parse_vardecl MAX_ID_LEN q = Ok node r ->
   parse MAX_ID_LEN q =
   map_outcome (add_variable (Some node)) (parse MAX_ID_LEN r)) /\
  (parse_function_decl MAX_ID_LEN q = Ok node r ->
   parse MAX_ID_LEN q =
   map_outcome (add_function (Some node)) (parse MAX_ID_LEN r)).
Proof.
  split; intros H.
  - destruct q as [|t q]; [discriminate H|].
    pose proof (parse_vardecl_not_def _ _ _ _ _ H) as Hdef.
    pose proof (consumes_parse_vardecl _ _ _ _ H) as Hlen.
    rewrite !parse_eq, parse_program_loop_cons, Hdef.
    unfold bind. rewrite H. unfold NodeList_add. cbn [app].
    rewrite (parse_program_loop_any_fuel _ _ (S (length r))) by lia.
    rewrite parse_program_loop_acc.
    now destruct (parse_program_loop _ _ _ _ _) as [[vs fs] r'| | |].
  - pose proof (parse_function_decl_Ok _ _ _ _ H)
      as [(t & q' & -> & Hdef) _].
    pose proof (consumes_parse_function_decl _ _ _ _ H) as Hlen.
    rewrite !parse_eq, parse_program_loop_cons, Hdef.
    unfold bind. rewrite H. unfold NodeList_add. cbn [app].
    rewrite (parse_program_loop_any_fuel _ _ (S (length r))) by lia.
    rewrite parse_program_loop_acc.
    now destruct (parse_program_loop _ _ _ _ _) as [[vs fs] r'| | |].
Qed.

Lemma parse_first_construct_witness :
  parse 256 [tok KEY "int" 1; tok ID "x" 1; tok SYM ";" 1;
             tok KEY "bool" 2; tok ID "y" 2; tok SYM ";" 2] =
  map_outcome (add_variable (Some (VarDeclNode "x" INT false 1 1)))
    (parse 256 [tok KEY "bool" 2; tok ID "y" 2; tok SYM ";" 2]).
Proof.
  apply (proj1 (parse_first_construct 256 _ _ _)). reflexivity.
Defined.

Lemma parse_program_loop_shape (MAX_ID_LEN fuel : nat) :
  forall (vars funcs : NodeList) (q : TokenQueue) (res : NodeList * NodeList)
         (r : TokenQueue),
    parse_program_loop MAX_ID_LEN fuel vars funcs q = Ok res r ->
    r = [] /\
    exists nv nf, fst res = vars ++ nv /\ snd res = funcs ++ nf /\
                  forallb is_VarDecl nv = true /\
                  forallb is_FuncDecl nf = true.
Proof.
  induction fuel as [|fuel IH]; intros vars funcs q res r H;
    [discriminate H|].
  destruct q as [|t q].
  - injection H as <- <-. split; [reflexivity|].
    exists [], []. cbn [fst snd]. now rewrite !app_nil_r.
  - rewrite parse_program_loop_cons in H. destruct (is_def t).
    + apply bind_Ok in H as (f & q1 & Hf & H).
      apply parse_function_decl_Ok in Hf as [_ Hf].
      apply IH in H as (-> & nv & nf & -> & -> & Hnv & Hnf).
      split; [reflexivity|]. exists nv, (Some f :: nf).
      unfold NodeList_add. rewrite <- app_assoc.
      cbn [forallb]. rewrite Hf, Hnf. repeat split; trivial.
    + apply bind_Ok in H as (v & q1 & Hv & H).
      apply parse_vardecl_Ok in Hv
        as (t1 & t2 & t3 & ty & _ & _ & _ & _ & _ & _ & ->).
      apply IH in H as (-> & nv & nf & -> & -> & Hnv & Hnf).
      split; [reflexivity|]. eexists (Some _ :: nv), nf.
      unfold NodeList_add. rewrite <- app_assoc.
      cbn [forallb is_VarDecl]. rewrite Hnv, Hnf. repeat split; trivial.
Qed.

(** X16: when [parse] succeeds, nothing is left in the queue, and the node
    is a Program whose variable list holds declaration nodes only and whose
    function list holds function nodes only (no null entry, no other
    node). *)
Theorem parse_result_shape (MAX_ID_LEN : nat) (q : TokenQueue)
  (node : ASTNode) (r : TokenQueue) :
  parse MAX_ID_LEN q = Ok node r ->
  r = [] /\
  exists vars funcs,
    node = ProgramNode vars funcs /\
    forallb is_VarDecl vars = true /\ forallb is_FuncDecl funcs = true.
Proof.
  rewrite parse_eq. intros H.
  destruct (parse_program_loop _ _ _ _ _) as [[vs fs] r'| | |] eqn:E;
    try discriminate H.
  cbn [map_outcome fst snd] in H. injection H as <- <-.
  apply parse_program_loop_shape in E as (-> & nv & nf & Hv & Hf & Hnv & Hnf).
  cbn [fst snd app] in Hv, Hf. subst vs fs.
  split; [reflexivity|]. now exists nv, nf.
Qed.

Lemma parse_result_shape_witness :
  @nil Token = [] /\
  exists vars funcs,
    ProgramNode [Some (VarDeclNode "x" INT false 1 1)] [] =
      ProgramNode vars funcs /\
    forallb is_VarDecl vars = true /\ forallb is_FuncDecl funcs = true.
Proof.
  apply (parse_result_shape 256
           [tok KEY "int" 1; tok ID "x" 1; tok SYM ";" 1]).
  reflexivity.
Defined.

Lemma parse_vardecl_tokens (MAX_ID_LEN : nat) (d : DecafType * string * Z)
  (rest : TokenQueue) :
  match vardecl_tokens d ++ rest with
  | t :: _ => is_def t = false
  | [] => False
  end /\
  parse_vardecl MAX_ID_LEN (vardecl_tokens d ++ rest) =
  Ok (VarDeclNode (snprintf MAX_ID_LEN (snd (fst d))) (fst (fst d)) false 1
        (snd d)) rest.
Proof. destruct d as [[[| |] name] l]; split; reflexivity. Qed.

Lemma parse_program_loop_declarations (MAX_ID_LEN : nat)
  (ds : list (DecafType * string * Z)) :
  Forall (fun d => (String.length (snd (fst d)) < MAX_ID_LEN)%nat) ds ->
  forall (fuel : nat) (vars : NodeList),
    (length ds < fuel)%nat ->
    parse_program_loop MAX_ID_LEN fuel vars [] (flat_map vardecl_tokens ds) =
    Ok (vars ++ map vardecl_node ds, []) [].
Proof.
  induction 1 as [|d ds Hd Hds IH]; intros fuel vars Hfuel;
    (destruct fuel as [|fuel]; [cbn in Hfuel; lia|]).
  - cbn. unfold ret. now rewrite app_nil_r.
  - cbn [flat_map length] in *.
    destruct (parse_vardecl_tokens MAX_ID_LEN d (flat_map vardecl_tokens ds))
      as [Hdef Hv].
    destruct (vardecl_tokens d ++ flat_map vardecl_tokens ds) as [|t q] eqn:E;
      [contradiction|].
    rewrite parse_program_loop_cons, Hdef. unfold bind. rewrite Hv.
    rewrite IH by lia. rewrite snprintf_short by exact Hd.
    unfold NodeList_add. rewrite <- app_assoc.
    now destruct d as [[ty name] l].
Qed.

(** X17: a token stream that is a sequence of well-formed top-level
    declarations [ty name ;], each name within the identifier limit, is
    parsed to the Program that holds exactly these declarations, in the
    order of the stream, and no function. *)
Theorem parse_declarations_in_order (MAX_ID_LEN : nat)
  (ds : list (DecafType * string * Z)) :
  Forall (fun d => (String.length (snd (fst d)) < MAX_ID_LEN)%nat) ds ->
  parse MAX_ID_LEN (flat_map vardecl_tokens ds) =
  Ok (ProgramNode (map vardecl_node ds) []) [].
Proof.
  intros Hds. rewrite parse_eq.
  rewrite (parse_program_loop_declarations _ ds Hds); [reflexivity|].
  clear Hds. induction ds as [|[[ty name] l] ds IH]; cbn in *; lia.
Qed.

Lemma parse_declarations_in_order_witness :
  parse 256 (flat_map vardecl_tokens [(INT, "x", 1); (BOOL, "y", 2)]) =
  Ok (ProgramNode (map vardecl_node [(INT, "x", 1); (BOOL, "y", 2)]) []) [].
Proof.
  apply (parse_declarations_in_order 256).
  repeat constructor; cbn; lia.
Defined.

(** ** Where undefined behaviour can and cannot arise *)

Lemma defined_bind {A B : Type} (m : M A) (f : A -> M B) :
  defined m -> (forall a, defined (f a)) -> defined (bind m f).
Proof.
  intros Hm Hf q u. unfold bind. specialize (Hm q).
  destruct (m q) as [a q'| |u'|]; try discriminate; [apply Hf|].
  now contradiction (Hm u').
Qed.

Lemma defined_ret {A : Type} (a : A) : defined (ret a).
Proof. intros q u. discriminate. Qed.

Lemma defined_parse_type : defined parse_type.
Proof.
  intros [|t q] u; [discriminate|]. rewrite parse_type_cons.
  destruct (TokenType_eqb _ _); [destruct (type_keyword _)|];
    try discriminate; apply fail_after_removal_defined.
Qed.

Lemma defined_parse_id (MAX_ID_LEN : nat) : defined (parse_id MAX_ID_LEN).
Proof.
  intros [|t q] u; [discriminate|]. rewrite parse_id_cons.
  destruct (TokenType_eqb _ _);
    try discriminate; apply fail_after_removal_defined.
Qed.

Lemma defined_match_and_discard_next_token (ty : TokenType) (txt : string) :
  defined (match_and_discard_next_token ty txt).
Proof.
  intros [|t q] u; [discriminate|]. rewrite match_and_discard_next_token_cons.
  destruct (_ && _); try discriminate; apply fail_after_removal_defined.
Qed.

Lemma parse_vardecl_defined (MAX_ID_LEN : nat) (t : Token) (q : TokenQueue)
  (u : UndefinedBehaviour) :
  parse_vardecl MAX_ID_LEN (t :: q) <> Undefined u.
Proof.
  unfold parse_vardecl. unfold bind at 1 2.
  cbn [TokenQueue_peek hd_error deref ret].
  apply defined_bind; [apply defined_parse_type | intros ty].
  apply defined_bind; [apply defined_parse_id | intros name].
  apply defined_bind;
    [apply defined_match_and_discard_next_token | intros x].
  apply defined_ret.
Qed.

Lemma parse_program_loop_defined (MAX_ID_LEN fuel : nat) :
  forall (vars funcs : NodeList) (q : TokenQueue) (u : UndefinedBehaviour),
    (forall t, In t q -> is_def t = false) ->
    parse_program_loop MAX_ID_LEN fuel vars funcs q <> Undefined u.
Proof.
  induction fuel as [|fuel IH]; intros vars funcs q u Hq; [discriminate|].
  destruct q as [|t q]; [discriminate|].
  rewrite parse_program_loop_cons, (Hq t) by (now left). unfold bind.
  destruct (parse_vardecl MAX_ID_LEN (t :: q)) as [v r|e|u'|] eqn:E;
    try discriminate.
  - apply IH. intros t' Hin. apply Hq.
    apply parse_vardecl_Ok in E as (t1 & t2 & t3 & ty & -> & _).
    now do 3 right.
  - now apply parse_vardecl_defined in E.
Qed.

(** X18: on a token stream without the keyword [def], a stream of
    top-level declarations, well formed or not, [parse] never runs into
    undefined behaviour: it returns a program or throws a failure. *)
Theorem parse_declarations_defined (MAX_ID_LEN : nat) (q : TokenQueue)
  (u : UndefinedBehaviour) :
  (forall t, In t q -> is_def t = false) ->
  parse MAX_ID_LEN q <> Undefined u.
Proof.
  intros Hq. rewrite parse_eq.
  pose proof (parse_program_loop_defined MAX_ID_LEN (S (length q)) [] [] q u
                Hq) as H.
  destruct (parse_program_loop _ _ _ _ _); try discriminate.
  intros [= ->]. now apply H.
Qed.

Lemma parse_declarations_defined_witness :
  parse 256 [tok KEY "int" 1; tok SYM ";" 1] <> Undefined NullDereference.
Proof.
  apply (parse_declarations_defined 256).
  intros t [<-|[<-|[]]]; reflexivity.
Defined.

(** X19: a function that is cut off by the end of the input after its
    [(], after its [)] or after its [{] makes [parse] read a null token;
    no end-of-input failure is thrown there. *)
Theorem parse_function_cut_off (MAX_ID_LEN : nat) (ty : DecafType)
  (name : string) (l : Z) :
  let header := [tok KEY "def" l; tok KEY (keyword_of_type ty) l;
                 tok ID name l; tok SYM "(" l] in
  parse MAX_ID_LEN header = Undefined NullDereference /\
  parse MAX_ID_LEN (header ++ [tok SYM ")" l]) = Undefined NullDereference /\
  parse MAX_ID_LEN (header ++ [tok SYM ")" l; tok SYM "{" l]) =
    Undefined NullDereference.
Proof. destruct ty; repeat split; reflexivity. Qed.

(** X20: on the empty queue the helpers that remove a token throw an
    end-of-input failure and the two tests answer false, but every
    node-level rule reads the line of a null token. *)
Theorem rules_on_empty_queue (MAX_ID_LEN MAX_TOKEN_LEN : nat)
  (ty : TokenType) (txt : string) :
  (get_next_token_line [] = Throw (UnexpectedEndOfInput None) /\
   discard_next_token [] = Throw (UnexpectedEndOfInput None) /\
   check_next_token_type ty [] = Ok false [] /\
   check_next_token ty txt [] = Ok false []) /\
  (parse_vardecl MAX_ID_LEN [] = Undefined NullDereference /\
   breakout_helper MAX_ID_LEN [] = Undefined NullDereference /\
   parse_assignment MAX_ID_LEN [] = Undefined NullDereference /\
   op_type_helper MAX_TOKEN_LEN [] = Undefined NullDereference /\
   parse_expression MAX_ID_LEN MAX_TOKEN_LEN [] = Undefined NullDereference /\
   parse_conditional MAX_ID_LEN MAX_TOKEN_LEN [] =
     Undefined NullDereference /\
   parse_block MAX_ID_LEN [] = Undefined NullDereference /\
   param_helper MAX_ID_LEN [] = Undefined NullDereference /\
   parse_function_decl MAX_ID_LEN [] = Undefined NullDereference).
Proof. repeat split; reflexivity. Qed.

Lemma bind_Ok_eq {A B : Type} (m : M A) (f : A -> M B) (q : TokenQueue)
  (a : A) (q' : TokenQueue) :
  m q = Ok a q' -> bind m f q = f a q'.
Proof. intros H. unfold bind. now rewrite H. Qed.

Lemma bind_Undefined {A B : Type} (m : M A) (f : A -> M B) (q : TokenQueue)
  (u : UndefinedBehaviour) :
  m q = Undefined u -> bind m f q = Undefined u.
Proof. intros H. unfold bind. now rewrite H. Qed.

Lemma parse_block_vars_cut_off (MAX_ID_LEN : nat)
  (ds : list (DecafType * string * Z)) :
  Forall (fun d => fst (fst d) <> VOID) ds ->
  forall (fuel : nat) (vars : NodeList),
    (length ds < fuel)%nat ->
    parse_block_vars MAX_ID_LEN fuel vars (flat_map vardecl_tokens ds) =
    Undefined NullDereference.
Proof.
  induction 1 as [|[[ty name] l] ds Hd Hds IH]; intros fuel vars Hfuel;
    (destruct fuel as [|fuel]; [cbn in Hfuel; lia|]); [reflexivity|].
  cbn [length fst] in *. cbn [flat_map parse_block_vars].
  destruct (parse_vardecl_tokens MAX_ID_LEN (ty, name, l)
              (flat_map vardecl_tokens ds)) as [_ Hv].
  destruct ty; [| |contradiction];
    cbn [vardecl_tokens keyword_of_type app] in *;
    (erewrite bind_Ok_eq by reflexivity);
    (erewrite bind_Ok_eq by reflexivity);
    cbn [text tok];
    match goal with
    | |- context [if ?c then _ else _] => change c with true
    end; cbv iota;
    (erewrite bind_Ok_eq by exact Hv);
    apply IH; lia.
Qed.

(** X25: a block that is cut off by the end of the input right after its
    [{] and any number of [int] and [bool] declarations makes
    [parse_block] read a null token; no end-of-input failure is thrown. *)
Theorem parse_block_cut_off (MAX_ID_LEN : nat) (l : Z)
  (ds : list (DecafType * string * Z)) :
  Forall (fun d => fst (fst d) <> VOID) ds ->
  parse_block MAX_ID_LEN (tok SYM "{" l :: flat_map vardecl_tokens ds) =
  Undefined NullDereference.
Proof.
  intros Hds. unfold parse_block.
  erewrite bind_Ok_eq by reflexivity.
  erewrite bind_Ok_eq by reflexivity. cbv zeta.
  erewrite bind_Ok_eq by reflexivity.
  erewrite bind_Ok_eq by reflexivity.
  apply bind_Undefined. apply parse_block_vars_cut_off; [exact Hds|].
  clear Hds. induction ds as [|[[ty name] l'] ds IH]; cbn in *; lia.
Qed.

Lemma parse_block_cut_off_witness :
  parse_block 256
    (tok SYM "{" 1 :: flat_map vardecl_tokens [(INT, "x", 1); (BOOL, "y", 2)]) =
  Undefined NullDereference.
Proof.
  apply (parse_block_cut_off 256).
  repeat constructor; discriminate.
Defined.

(** ** Every rule stops *)

(** X21: every rule with a loop stops on every token stream: the loops of
    [parse_program], [parse_block] and [param_helper] end after at most one
    round per token of the queue, so [parse], [parse_function_decl],
    [parse_block], [param_helper] and [parse_conditional] return, throw or
    are undefined, and never run on. *)
Theorem rules_terminate (MAX_ID_LEN MAX_TOKEN_LEN : nat) :
  terminates (parse MAX_ID_LEN) /\
  terminates (parse_function_decl MAX_ID_LEN) /\
  terminates (parse_block MAX_ID_LEN) /\
  terminates (param_helper MAX_ID_LEN) /\
  terminates (parse_conditional MAX_ID_LEN MAX_TOKEN_LEN).
Proof.
  repeat split.
  - apply parse_terminates.
  - apply terminates_parse_function_decl.
  - apply terminates_parse_block.
  - apply terminates_param_helper.
  - apply terminates_parse_conditional.
Qed.

(** ** Inputs for the facts about conditionals and expressions *)

Lemma parse_conditional_else_branch_null_witness :
  exists c b l,
    ConditionalNode (Some (LiteralNode_bool true 1))
      (Some (BlockNode [] [Some (BreakNode 1)] 1)) None 1 =
    ConditionalNode c b None l.
Proof.
  apply (parse_conditional_else_branch_null 256 256
           [tok KEY "if" 1; tok SYM "(" 1; tok KEY "true" 1; tok SYM ")" 1;
            tok SYM "{" 1; tok KEY "break" 1; tok SYM ";" 1; tok SYM "}" 1]
           _ []).
  reflexivity.
Defined.

Lemma parse_expression_never_unary_witness :
  LiteralNode_bool true 1 <> UnaryOpNode NOTOP None 1.
Proof.
  apply (parse_expression_never_unary 256 256 [tok KEY "true" 1] _ []).
  reflexivity.
Defined.

Lemma parse_expression_binary_undefined_witness :
  parse_expression 256 256 [tok ID "x" 1; tok SYM "+" 1; tok ID "y" 1] =
  Undefined NoReturnValue.
Proof.
  apply (parse_expression_binary_undefined 256 256 "x" "+" ADDOP);
    [lia | simpl; tauto].
Defined.

(** ** Functions and conditionals around a block *)

Lemma param_tokens_length (l : Z) (ps : list (DecafType * string))
  (q : TokenQueue) :
  (length ps < S (length (param_tokens l ps ++ q)))%nat.
Proof.
  rewrite length_app.
  induction ps as [|p [|p' ps] IH]; cbn [param_tokens length] in *; lia.
Qed.

Lemma param_helper_list (MAX_ID_LEN : nat) (l l' : Z)
  (ps : list (DecafType * string)) (rest : TokenQueue) :
  Forall (parameter_ok MAX_ID_LEN) ps ->
  param_helper MAX_ID_LEN (param_tokens l ps ++ tok SYM ")" l' :: rest) =
  Ok (map parameter_of ps) (tok SYM ")" l' :: rest).
Proof.
  intros Hps. unfold param_helper, bind, fuel_of_queue, ParameterList_new.
  rewrite param_helper_loop_list; trivial. apply param_tokens_length.
Qed.

(** X26: a function [def ty name ( parameters ) block] is parsed to the
    function node of its parts: when [parse_block] parses the queue behind
    the [)] to a block, [parse_function_decl] returns the FuncDecl with the
    name, the return type, the parameters in their order and that block, on
    the line of [def], and leaves what the block left. *)
Theorem parse_function_decl_parts (MAX_ID_LEN : nat) (ty : DecafType)
  (name : string) (l : Z) (ps : list (DecafType * string))
  (q : TokenQueue) (block : ASTNode) (r : TokenQueue) :
  (String.length name < MAX_ID_LEN)%nat ->
  Forall (parameter_ok MAX_ID_LEN) ps ->
  parse_block MAX_ID_LEN q = Ok block r ->
  parse_function_decl MAX_ID_LEN
    (tok KEY "def" l :: tok KEY (keyword_of_type ty) l :: tok ID name l ::
     tok SYM "(" l :: param_tokens l ps ++ tok SYM ")" l :: q) =
  Ok (FuncDeclNode name ty (map parameter_of ps) (Some block) l) r.
Proof.
  intros Hname Hps Hblock. unfold parse_function_decl.
  erewrite bind_Ok_eq by reflexivity.
  erewrite bind_Ok_eq by reflexivity. cbv zeta.
  erewrite bind_Ok_eq by reflexivity.
  erewrite bind_Ok_eq by (destruct ty; reflexivity).
  erewrite bind_Ok_eq by reflexivity.
  erewrite bind_Ok_eq by reflexivity.
  erewrite bind_Ok_eq by (apply param_helper_list; exact Hps).
  erewrite bind_Ok_eq by reflexivity.
  erewrite bind_Ok_eq by exact Hblock.
  cbn [line tok]. now rewrite snprintf_short.
Qed.

Lemma parse_function_decl_parts_witness :
  parse_function_decl 256
    (tok KEY "def" 1 :: tok KEY (keyword_of_type VOID) 1 :: tok ID "f" 1 ::
     tok SYM "(" 1 :: param_tokens 1 [(INT, "a")] ++ tok SYM ")" 1 ::
     [tok SYM "{" 1; tok KEY "return" 1; tok SYM ";" 1; tok SYM "}" 1]) =
  Ok (FuncDeclNode "f" VOID (map parameter_of [(INT, "a")])
        (Some (BlockNode [] [Some (ReturnNode None 1)] 1)) 1) [].
Proof.
  apply (parse_function_decl_parts 256);
    [cbn; lia | repeat constructor; cbn; (discriminate || lia) | reflexivity].
Defined.

Lemma parse_expression_bool (MAX_ID_LEN MAX_TOKEN_LEN : nat) (b : bool)
  (l : Z) (q : TokenQueue) :
  parse_expression MAX_ID_LEN MAX_TOKEN_LEN
    (tok KEY (if b then "true" else "false") l :: q) =
  Ok (LiteralNode_bool b l) q.
Proof. destruct b; reflexivity. Qed.

(** X27: a conditional [if ( true ) block] or [if ( false ) block] is
    parsed to the Conditional of the boolean literal and the block with a
    null else-branch, on the line of [if], unless the keyword [else]
    follows the block; when it does, [parse_conditional] throws the
    unexpected-token failure that expected a [{] and found [else], on the
    line of the token behind [else]. *)
Theorem parse_conditional_parts (MAX_ID_LEN MAX_TOKEN_LEN : nat)
  (b : bool) (l : Z) (q : TokenQueue) (block : ASTNode) (r : TokenQueue) :
  parse_block MAX_ID_LEN q = Ok block r ->
  let tokens := tok KEY "if" l :: tok SYM "(" l ::
                tok KEY (if b then "true" else "false") l ::
                tok SYM ")" l :: q in
  (check_next_token KEY "else" r = Ok false r ->
   parse_conditional MAX_ID_LEN MAX_TOKEN_LEN tokens =
   Ok (ConditionalNode (Some (LiteralNode_bool b l)) (Some block) None l) r) /\
  (forall t' r' l', r = tok KEY "else" l' :: t' :: r' ->
   parse_conditional MAX_ID_LEN MAX_TOKEN_LEN tokens =
   Throw (UnexpectedToken "{" "else" (line t'))).
Proof.
  intros Hblock tokens. subst tokens. split.
  - intros Hr. unfold parse_conditional.
    erewrite bind_Ok_eq by reflexivity.
    erewrite bind_Ok_eq by reflexivity. cbv zeta.
    erewrite bind_Ok_eq by reflexivity.
    erewrite bind_Ok_eq by reflexivity.
    erewrite bind_Ok_eq by apply parse_expression_bool.
    erewrite bind_Ok_eq by reflexivity.
    erewrite bind_Ok_eq by exact Hblock.
    erewrite bind_Ok_eq by exact Hr.
    reflexivity.
  - intros t' r' l' ->. unfold parse_conditional.
    erewrite bind_Ok_eq by reflexivity.
    erewrite bind_Ok_eq by reflexivity. cbv zeta.
    erewrite bind_Ok_eq by reflexivity.
    erewrite bind_Ok_eq by reflexivity.
    erewrite bind_Ok_eq by apply parse_expression_bool.
    erewrite bind_Ok_eq by reflexivity.
    erewrite bind_Ok_eq by exact Hblock.
    reflexivity.
Qed.

Lemma parse_conditional_parts_witness :
  parse_conditional 256 256
    (tok KEY "if" 1 :: tok SYM "(" 1 :: tok KEY "false" 1 :: tok SYM ")" 1 ::
     [tok SYM "{" 2; tok KEY "continue" 2; tok SYM ";" 2; tok SYM "}" 2;
      tok KEY "break" 3]) =
  Ok (ConditionalNode (Some (LiteralNode_bool false 1))
        (Some (BlockNode [] [Some (ContinueNode 2)] 2)) None 1)
     [tok KEY "break" 3].
Proof.
  apply (proj1 (parse_conditional_parts 256 256 false 1
                  [tok SYM "{" 2; tok KEY "continue" 2; tok SYM ";" 2;
                   tok SYM "}" 2; tok KEY "break" 3]
                  (BlockNode [] [Some (ContinueNode 2)] 2)
                  [tok KEY "break" 3] eq_refl)).
  reflexivity.
Defined.
